(** * A shallow embedding of the CSG / BSP engine of [src/app/geometry/csg.ts]

    JavaScript numbers are modelled as exact rationals ([Q]): every
    comparison and every arithmetic operation of the source is kept, rounding
    is not.  Where a property depends on rounding, the same source lines are
    also given in binary64, on primitive floats (the definitions whose names
    end in [_f64]), and the two are related.  Polygon objects live in a store and are named by their index,
    because the source shares them (between trees, and as [$parent] of the
    fragments of a split), mutates their [$flipped] bit in place and uses them
    as [Map] keys.  Nodes are only ever allocated by [csg_tree_addPolygon], so
    a tree is an inductive value; the root node a caller holds is a reference
    into the store of trees. *)

From Stdlib Require Import QArith Qpower Lqa ZArith Lia List Bool Floats.
From stdpp Require Import base option list gmap.

Local Open Scope Q_scope.

(** ** Numbers *)

(** [a < b] as the test the source's [<] and [>] run. *)
Definition Qltb (a b : Q) : bool := negb (Qle_bool b a).

(** ** Vectors and planes ([../math/vectors]) *)

Record Vec3In := mkVec3 { x : Q; y : Q; z : Q }.

(** [Plane] is [Vec3 & { w }] in the source: the normal's components are read
    as [plane.x], [plane.y], [plane.z]. *)
Record Plane := mkPlane { normal :> Vec3In; w : Q }.

(** Modelled from the spec: [vec3_dot] is imported from [../math/vectors],
    which is not part of the sources at hand; the spec gives it as the dot
    product of two vectors that ignores [w] when given a plane. *)
Definition vec3_dot (a b : Vec3In) : Q := x a * x b + y a * y b + z a * z b.

Definition PLANE_EPSILON : Q := 8 # 100000.

(** ** Polygons and the store *)

Record Polygon := mkPolygon { color : Z; points : list Vec3In }.

Abbreviation PolyRef := nat (only parsing).

Record CSGPolygon := mkCSGPolygon {
  polygon_of :> Polygon;
  flipped : bool;
  parent : option PolyRef
}.

Record SplitPolygonResult := mkSplit {
  sfront : option PolyRef;
  sback : option PolyRef
}.

(** [CSGNode | null]: a node extends [Plane] and owns its two children. *)
Inductive CSGTree :=
| Null
| Node (plane : Plane) (polygons : list PolyRef) (front back : CSGTree).

Abbreviation TreeRef := nat (only parsing).

Record Heap := mkHeap {
  polys : list CSGPolygon;
  trees : list CSGTree
}.

(** ** State and exceptions

    [St S A] is a computation over a state [S] that may throw (a JavaScript
    [TypeError]); [M] is the instance over the heap. *)

Definition St (S A : Type) : Type := S -> option (A * S).

Definition st_ret {S A} (a : A) : St S A := fun s => Some (a, s).

Definition st_bind {S A B} (m : St S A) (k : A -> St S B) : St S B :=
  fun s => match m s with
           | Some (a, s') => k a s'
           | None => None
           end.

Definition throw {S A} : St S A := fun _ => None.

Notation "'do' x <- c1 ; c2" := (st_bind c1 (fun x => c2))
  (at level 10, x name, c1 at level 100, c2 at level 200, only parsing).

Abbreviation M := (St Heap).

(** [for (const a of l) body(a)] *)
Fixpoint for_of {S A} (l : list A) (body : A -> St S unit) : St S unit :=
  match l with
  | [] => st_ret tt
  | a :: l' => do _ <- body a; for_of l' body
  end.

Definition get_polygon (r : PolyRef) : M CSGPolygon :=
  fun h => match polys h !! r with
           | Some p => Some (p, h)
           | None => None
           end.

Definition new_polygon (p : CSGPolygon) : M PolyRef :=
  fun h => Some (length (polys h), mkHeap (polys h ++ [p]) (trees h)).

Definition set_flipped (r : PolyRef) (v : bool) : M unit :=
  fun h => match polys h !! r with
           | Some p =>
               Some (tt, mkHeap (<[r := mkCSGPolygon (polygon_of p) v (parent p)]>
                                   (polys h))
                                (trees h))
           | None => None
           end.

Definition get_tree (r : TreeRef) : M CSGTree :=
  fun h => match trees h !! r with
           | Some t => Some (t, h)
           | None => None
           end.

Definition new_tree (t : CSGTree) : M TreeRef :=
  fun h => Some (length (trees h), mkHeap (polys h) (trees h ++ [t])).

Definition set_tree (r : TreeRef) (t : CSGTree) : M unit :=
  fun h => match trees h !! r with
           | Some _ => Some (tt, mkHeap (polys h) (<[r := t]> (trees h)))
           | None => None
           end.

(** ** Polygon splitter *)

(** The divisor of [t] in the spanning split, in exact arithmetic;
    [split_denominator_f64] is the same expression in binary64. *)
Definition split_denominator (plane : Plane) (iv jv : Vec3In) : Q :=
  x plane * (x jv - x iv) + y plane * (y jv - y iv) + z plane * (z jv - z iv).

Definition straddles (d jd : Q) : bool :=
  (Qltb d (- PLANE_EPSILON) && Qltb PLANE_EPSILON jd)
  || (Qltb PLANE_EPSILON d && Qltb jd (- PLANE_EPSILON)).

(** The point [v] where the edge meets the plane, in exact arithmetic;
    [intersection_f64] is the same computation in binary64.  Division by
    zero, which yields 0 in [Q], does not occur here: the point is computed
    for straddling edges only, whose exact divisor is not zero. *)
Definition intersection (plane : Plane) (iv jv : Vec3In) (d : Q) : Vec3In :=
  let t := - d / split_denominator plane iv jv in
  mkVec3 ((x jv - x iv) * t + x iv)
         ((y jv - y iv) * t + y iv)
         ((z jv - z iv) * t + z iv).

(** The loop state of [CSGPolygon_splitSpanning]: [iv], [d], [fpoints] and
    [bpoints]. *)
Record SpanState := mkSpan {
  s_iv : Vec3In;
  s_d : Q;
  fpoints : list Vec3In;
  bpoints : list Vec3In
}.

(** One iteration of the loop, for [jv = $points[i]]. *)
Definition span_step (plane : Plane) (st : SpanState) (jv : Vec3In) : SpanState :=
  let iv := s_iv st in
  let d := s_d st in
  let jd := vec3_dot plane jv - w plane in
  let f1 := if Qltb (- PLANE_EPSILON) d then fpoints st ++ [iv] else fpoints st in
  let b1 := if Qltb d PLANE_EPSILON then bpoints st ++ [iv] else bpoints st in
  if straddles d jd then
    let v := intersection plane iv jv d in
    mkSpan jv jd (f1 ++ [v]) (b1 ++ [v])
  else
    mkSpan jv jd f1 b1.

Definition span_loop (plane : Plane) (pts : list Vec3In) (iv : Vec3In) : SpanState :=
  fold_left (span_step plane) pts
            (mkSpan iv (vec3_dot plane iv - w plane) [] []).

Definition CSGPolygon_splitSpanning (plane : Plane) (polygon : PolyRef)
  : M SplitPolygonResult :=
  do p <- get_polygon polygon;
  match last (points p) with
  | None => throw
  | Some iv =>
      let st := span_loop plane (points p) iv in
      do f <- (if (2 <? length (fpoints st))%nat
               then do r <- new_polygon
                              (mkCSGPolygon (mkPolygon (color p) (fpoints st))
                                            (flipped p) (Some polygon));
                    st_ret (Some r)
               else st_ret None);
      do b <- (if (2 <? length (bpoints st))%nat
               then do r <- new_polygon
                              (mkCSGPolygon (mkPolygon (color p) (bpoints st))
                                            (flipped p) (Some polygon));
                    st_ret (Some r)
               else st_ret None);
      st_ret (mkSplit f b)
  end.

(** The classification pass: [(f, b)] record whether the polygon has a point
    strictly in front of, strictly behind the plane. *)
Definition classify_step (plane : Plane) (fb : bool * bool) (p : Vec3In)
  : bool * bool :=
  let t := vec3_dot plane p - w plane in
  if Qltb t (- PLANE_EPSILON) then (fst fb, true)
  else if Qltb PLANE_EPSILON t then (true, snd fb)
  else fb.

Definition classify (plane : Plane) (pts : list Vec3In) : bool * bool :=
  fold_left (classify_step plane) pts (false, false).

Definition CSGPolygon_split (plane : Plane) (polygon : PolyRef)
  : M SplitPolygonResult :=
  do p <- get_polygon polygon;
  let fb := classify plane (points p) in
  if fst fb && snd fb then CSGPolygon_splitSpanning plane polygon
  else st_ret (mkSplit (if fst fb then Some polygon else None)
                       (if snd fb then Some polygon else None)).

(** ** BSP builder *)

Fixpoint csg_tree_addPolygon (node : CSGTree) (polygon : PolyRef)
    (polygonNormal : Vec3In) (planeW : Q) : M CSGTree :=
  match node with
  | Null =>
      st_ret (Node (mkPlane (mkVec3 (x polygonNormal) (y polygonNormal)
                                    (z polygonNormal)) planeW)
                   [polygon] Null Null)
  | Node plane polygons front back =>
      do sp <- CSGPolygon_split plane polygon;
      do front' <- match sfront sp with
                   | Some f => csg_tree_addPolygon front f polygonNormal planeW
                   | None => st_ret front
                   end;
      do back' <- match sback sp with
                  | Some b => csg_tree_addPolygon back b polygonNormal planeW
                  | None => st_ret back
                  end;
      st_ret (Node plane
                   (match sfront sp, sback sp with
                    | None, None => polygons ++ [polygon]
                    | _, _ => polygons
                    end)
                   front' back')
  end.

(** ** Tree traversal

    A visitor receives the node it may mutate.  What it can do to the node is
    rewrite its plane and its bundle and rearrange its children; the children
    are handed to it as opaque handles, and the traversal continues with
    whatever the visitor left in [$front] and [$back], in that order. *)

Record NodeView (C : Type) := mkView {
  v_plane : Plane;
  v_polygons : list PolyRef;
  v_front : C;
  v_back : C
}.
Arguments mkView {C}.
Arguments v_plane {C}.
Arguments v_polygons {C}.
Arguments v_front {C}.
Arguments v_back {C}.

Definition Visitor (S : Type) : Type :=
  forall C : Type, NodeView C -> St S (NodeView C).

Fixpoint csg_tree_each {S} (node : CSGTree) (fn : Visitor S) : St S CSGTree :=
  match node with
  | Null => st_ret Null
  | Node plane polygons front back =>
      do n <- fn _ (mkView plane polygons
                           (csg_tree_each front fn) (csg_tree_each back fn));
      do front' <- v_front n;
      do back' <- v_back n;
      st_ret (Node (v_plane n) (v_polygons n) front' back')
  end.

(** A [CSGNode | null | undefined] held by a caller: the root's reference. *)
Definition tree_at (root : option TreeRef) : M CSGTree :=
  match root with
  | Some r => get_tree r
  | None => st_ret Null
  end.

(** Running code that mutates the tree under [root] in place. *)
Definition in_place (root : option TreeRef) (f : CSGTree -> M CSGTree) : M unit :=
  match root with
  | Some r => do t <- get_tree r; do t' <- f t; set_tree r t'
  | None => do _ <- f Null; st_ret tt
  end.

(** ** Tree flip *)

Definition flip_node : Visitor Heap := fun C node =>
  let back := v_back node in
  do _ <- for_of (v_polygons node) (fun polygon =>
            do p <- get_polygon polygon;
            set_flipped polygon (negb (flipped p)));
  let n := v_plane node in
  st_ret (mkView (mkPlane (mkVec3 (x n * -1) (y n * -1) (z n * -1)) (w n * -1))
                 (v_polygons node) back (v_front node)).

Definition csg_tree_flip (root : option TreeRef) : M unit :=
  in_place root (fun t => csg_tree_each t flip_node).

(** ** Tree clipper *)

(** The coplanar tie-break of [csg_tree_clipPolygon]. *)
Definition coplanar_route (node : Plane) (polygon : PolyRef)
    (polygonPlane : Plane) (sp : SplitPolygonResult) : SplitPolygonResult :=
  match sfront sp, sback sp with
  | None, None =>
      if Qltb (w node) (vec3_dot node polygonPlane)
      then mkSplit (Some polygon) (sback sp)
      else mkSplit (sfront sp) (Some polygon)
  | _, _ => sp
  end.

Fixpoint csg_tree_clipPolygon (node : CSGTree) (polygon : PolyRef)
    (polygonPlane : Plane) (result : list PolyRef) : M (list PolyRef) :=
  match node with
  | Null => throw
  | Node plane _ front back =>
      do sp <- CSGPolygon_split plane polygon;
      let sp := coplanar_route plane polygon polygonPlane sp in
      do result <- match sfront sp with
                   | Some f =>
                       match front with
                       | Node _ _ _ _ =>
                           csg_tree_clipPolygon front f polygonPlane result
                       | Null => st_ret (result ++ [f])
                       end
                   | None => st_ret result
                   end;
      match sback sp, back with
      | Some b, Node _ _ _ _ => csg_tree_clipPolygon back b polygonPlane result
      | _, _ => st_ret result
      end
  end.

(** [for (const a of l) acc = body(acc, a)]: a loop that grows an array. *)
Fixpoint fold_of {S A B} (l : list A) (acc : B) (body : B -> A -> St S B)
  : St S B :=
  match l with
  | [] => st_ret acc
  | a :: l' => do acc' <- body acc a; fold_of l' acc' body
  end.

Definition clip_node (bsp : option TreeRef) : Visitor Heap := fun C node =>
  do clipped <- fold_of (v_polygons node) [] (fun clipped polygon =>
                  do b <- tree_at bsp;
                  csg_tree_clipPolygon b polygon (v_plane node) clipped);
  st_ret (mkView (v_plane node) clipped (v_front node) (v_back node)).

Definition csg_tree_clipTo (root bsp : option TreeRef) : M unit :=
  in_place root (fun t => csg_tree_each t (clip_node bsp)).

(** ** Tree merger *)

Definition add_node (tree : option TreeRef) : Visitor Heap := fun C sourceNode =>
  do _ <- for_of (v_polygons sourceNode) (fun polygon =>
            in_place tree (fun t =>
              csg_tree_addPolygon t polygon (v_plane sourceNode)
                                  (w (v_plane sourceNode))));
  st_ret sourceNode.

(** The polygons of a tree, bundle by bundle in pre-order. *)
Fixpoint tree_polygons (t : CSGTree) : list PolyRef :=
  match t with
  | Null => []
  | Node _ polygons front back =>
      polygons ++ tree_polygons front ++ tree_polygons back
  end.

Definition same_node (a b : option TreeRef) : bool :=
  match a, b with
  | Some t, Some s => (t =? s)%nat
  | _, _ => false
  end.

(** When [tree] and [source] are the same node and hold a polygon, the
    source's loops push on the arrays they iterate; that run is not modelled
    and has no result here. *)
Definition csg_tree_addTree (tree source : option TreeRef) : M unit :=
  do st <- tree_at source;
  match same_node tree source, tree_polygons st with
  | true, _ :: _ => throw
  | _, _ => do _ <- csg_tree_each st (add_node tree); st_ret tt
  end.

(** ** Building trees and the boolean operations *)

(** A [CSGInput]: a built tree or a list of polygons. *)
Inductive CSGInput :=
| InNode (node : TreeRef)
| InPolygons (polygons : list Polygon).

(** A value of type [CSGInput | undefined]. *)
Abbreviation Val := (option CSGInput) (only parsing).

Section Operations.

(** [vec3_polygonNormal] is imported from [../math/vectors], which is not
    part of the sources at hand: the operations take it as a parameter.  It
    has no result ([None]) where the call throws. *)
Variable vec3_polygonNormal : list Vec3In -> option Vec3In.

Definition csg_tree_build (root : CSGTree) (p : Polygon) : M CSGTree :=
  match vec3_polygonNormal (points p) with
  | None => throw
  | Some normal =>
      do polygon <- new_polygon (mkCSGPolygon (mkPolygon (color p) (points p))
                                              false None);
      match head (points p) with
      | None => throw
      | Some p0 =>
          csg_tree_addPolygon root polygon normal (vec3_dot normal p0)
      end
  end.

Definition csg_tree (n : Val) : M (option TreeRef) :=
  match n with
  | Some (InPolygons ps) =>
      do root <- fold_of ps Null csg_tree_build;
      match root with
      | Null => st_ret None
      | Node _ _ _ _ => do r <- new_tree root; st_ret (Some r)
      end
  | Some (InNode r) => st_ret (Some r)
  | None => st_ret None
  end.

Definition csg_union_op (a b : Val) : M (option TreeRef) :=
  do a <- csg_tree a;
  match b with
  | Some _ =>
      do b <- csg_tree b;
      do _ <- csg_tree_clipTo a b;
      do _ <- csg_tree_clipTo b a;
      do _ <- csg_tree_flip b;
      do _ <- csg_tree_clipTo b a;
      do _ <- csg_tree_flip b;
      do _ <- csg_tree_addTree a b;
      st_ret a
  | None => st_ret a
  end.

(** [inputs.reduce(csg_union_op)]: no initial value, so the first element
    is the first accumulator, the callback is not called for a one-element
    array, and an empty array throws. *)
Definition csg_union (inputs : list CSGInput) : M Val :=
  match inputs with
  | [] => throw
  | i0 :: rest =>
      fold_of rest (Some i0) (fun acc cur =>
        do r <- csg_union_op acc (Some cur);
        st_ret (option_map InNode r))
  end.

Definition csg_subtract (a b : Val) : M (option TreeRef) :=
  do a <- csg_tree a;
  do _ <- csg_tree_flip a;
  do _ <- csg_union_op (option_map InNode a) b;
  do _ <- csg_tree_flip a;
  st_ret a.

Definition csg_intersect (a b : Val) : M (option TreeRef) :=
  do a <- csg_tree a;
  do _ <- csg_tree_flip a;
  do b <- csg_tree b;
  do _ <- csg_tree_clipTo b a;
  do _ <- csg_tree_flip b;
  do _ <- csg_tree_clipTo a b;
  do _ <- csg_tree_clipTo b a;
  do _ <- csg_tree_addTree a b;
  do _ <- csg_tree_flip a;
  st_ret a.

End Operations.

(** ** Output extractor *)

(** [allPolygons] is a [Map] whose iteration order is its insertion order. *)
Fixpoint map_set (k : PolyRef) (v : bool) (m : list (PolyRef * bool))
  : list (PolyRef * bool) :=
  match m with
  | [] => [(k, v)]
  | (k', v') :: m' =>
      if (k =? k')%nat then (k, v) :: m' else (k', v') :: map_set k v m'
  end.

Definition map_delete (k : PolyRef) (m : list (PolyRef * bool))
  : list (PolyRef * bool) :=
  List.filter (fun kv => negb (fst kv =? k)%nat) m.

Record Collect := mkCollect {
  byParent : gmap nat nat;
  allPolygons : list (PolyRef * bool)
}.

(** The heap is only read by [csg_polygons]. *)
Definition read_polygon (h : Heap) (r : PolyRef) : St Collect CSGPolygon :=
  fun c => match polys h !! r with
           | Some p => Some (p, c)
           | None => None
           end.

(** [add]: the recursion follows [$parent]; [fuel] bounds its depth. *)
Fixpoint add (h : Heap) (fuel : nat) (polygon : PolyRef) : St Collect PolyRef :=
  match fuel with
  | O => throw
  | S fuel' =>
      do p <- read_polygon h polygon;
      match parent p with
      | Some parent =>
          fun c =>
            match byParent c !! parent with
            | Some found =>
                add h fuel' parent
                    (mkCollect (byParent c) (map_delete found (allPolygons c)))
            | None =>
                Some (polygon,
                      mkCollect (<[parent := polygon]> (byParent c))
                                (allPolygons c))
            end
      | None => st_ret polygon
      end
  end.

Definition collect_node (h : Heap) : Visitor Collect := fun C node =>
  do _ <- for_of (v_polygons node) (fun polygon =>
            do k <- add h (S (length (polys h))) polygon;
            do p <- read_polygon h polygon;
            fun c => Some (tt, mkCollect (byParent c)
                                         (map_set k (flipped p) (allPolygons c))));
  st_ret node.

Definition output_polygon (h : Heap) (result : list Polygon)
    (pf : PolyRef * bool) : option (list Polygon) :=
  match (polys h !! fst pf : option CSGPolygon) with
  | Some p =>
      let pts := map (fun v => mkVec3 (x v) (y v) (z v)) (points p) in
      Some (result ++ [mkPolygon (color p) (if snd pf then rev pts else pts)])
  | None => None
  end.

Definition csg_polygons (tree : option TreeRef) : M (list Polygon) :=
  do t <- tree_at tree;
  fun h =>
    match csg_tree_each t (collect_node h) (mkCollect ∅ []) with
    | Some (_, c) =>
        match foldl (fun acc pf => acc ≫= fun r => output_polygon h r pf)
                    (Some []) (allPolygons c) with
        | Some result => Some (result, h)
        | None => None
        end
    | None => None
    end.

(** ** Vocabulary of the properties *)

(** The signed distance of a point to a plane, [vec3_dot(plane, p) - plane.w]. *)
Definition distance (plane : Plane) (p : Vec3In) : Q :=
  vec3_dot plane p - w plane.

(** A polygon lies on a plane: every vertex is within [PLANE_EPSILON] of it. *)
Definition on_plane (plane : Plane) (pts : list Vec3In) : Prop :=
  Forall (fun p => - PLANE_EPSILON <= distance plane p
                   /\ distance plane p <= PLANE_EPSILON) pts.

(** Two unit normals facing the same way have dot product 1, facing opposite
    ways -1. *)
Definition same_facing (node polygonPlane : Plane) : Prop :=
  vec3_dot node polygonPlane == 1.

Definition opposite_facing (node polygonPlane : Plane) : Prop :=
  vec3_dot node polygonPlane == - (1).

(** Where [csg_tree_clipPolygon] sends a polygon that the split left on the
    node's plane. *)
Definition routed_front (node : Plane) (polygon : PolyRef) (polygonPlane : Plane)
  : Prop :=
  coplanar_route node polygon polygonPlane (mkSplit None None)
  = mkSplit (Some polygon) None.

Definition routed_back (node : Plane) (polygon : PolyRef) (polygonPlane : Plane)
  : Prop :=
  coplanar_route node polygon polygonPlane (mkSplit None None)
  = mkSplit None (Some polygon).

(** Parents are older than their fragments: a fragment is allocated by the
    split of a polygon that is already in the store. *)
Definition parents_older (h : Heap) : Prop :=
  forall (i q : PolyRef) (p : CSGPolygon),
    polys h !! i = Some p -> parent p = Some q -> (q < i)%nat.

(** ** Scenarios *)

Definition V (a b c : Q) : Vec3In := mkVec3 a b c.

Definition empty_heap : Heap := mkHeap [] [].

(** The plane [x = 0] facing [+x]. *)
Definition plane_x0 : Plane := mkPlane (V 1 0 0) 0.

(** A triangle across [x = 0] whose second vertex is at signed distance
    exactly [- PLANE_EPSILON]. *)
Definition edge_triangle : list Vec3In :=
  [V 1 0 0; V (- PLANE_EPSILON) 1 0; V (- (1)) 0 0].

(** The plane [x = 2] facing [+x], and a quad lying on it, wound to face
    [+x] as well. *)
Definition plane_x2 : Plane := mkPlane (V 1 0 0) 2.

Definition quad_x2 : CSGPolygon :=
  mkCSGPolygon (mkPolygon 1 [V 2 0 0; V 2 1 0; V 2 1 1; V 2 0 1]) false None.

Definition heap_quad_x2 : Heap := mkHeap [quad_x2] [].

Definition heap_edge_triangle : Heap :=
  mkHeap [mkCSGPolygon (mkPolygon 1 edge_triangle) false None] [].

(** ** Flipping, as a function on trees and stores *)

Definition negated (p : Plane) : Plane :=
  mkPlane (mkVec3 (x p * -1) (y p * -1) (z p * -1)) (w p * -1).

(** Every plane negated, every pair of children swapped, bundles kept. *)
Fixpoint flipped_tree (t : CSGTree) : CSGTree :=
  match t with
  | Null => Null
  | Node plane polygons front back =>
      Node (negated plane) polygons (flipped_tree back) (flipped_tree front)
  end.

Definition toggled (p : CSGPolygon) : CSGPolygon :=
  mkCSGPolygon (polygon_of p) (negb (flipped p)) (parent p).

(** How often a polygon object is stored in a tree. *)
Definition occurrences (r : PolyRef) (t : CSGTree) : nat :=
  count_occ Nat.eq_dec (tree_polygons t) r.

(** Every polygon stored in the tree is an object of the store. *)
Definition tree_in_heap (h : Heap) (t : CSGTree) : Prop :=
  Forall (fun r => (r < length (polys h))%nat) (tree_polygons t).

Definition toggle_at (r : PolyRef) (s : list CSGPolygon) : list CSGPolygon :=
  match s !! r with
  | Some p => <[r := toggled p]> s
  | None => s
  end.

Definition toggle_all (rs : list PolyRef) (s : list CSGPolygon)
  : list CSGPolygon :=
  fold_left (fun s r => toggle_at r s) rs s.

(** The order in which a flip meets the polygons: the visitor swaps the
    children before the traversal descends. *)
Fixpoint flip_order (t : CSGTree) : list PolyRef :=
  match t with
  | Null => []
  | Node _ polygons front back => polygons ++ flip_order back ++ flip_order front
  end.

(** A small tree over two polygon objects, and its heap. *)
Definition two_node_tree : CSGTree :=
  Node plane_x0 [0%nat] (Node plane_x2 [1%nat] Null Null) Null.

Definition heap_two_nodes : Heap :=
  mkHeap [mkCSGPolygon (mkPolygon 1 [V 0 0 0; V 0 1 0; V 0 1 1]) false None;
          quad_x2]
         [two_node_tree].

(** ** Cubes *)

Definition Qsign (q : Q) : Q :=
  if Qltb 0 q then 1 else if Qltb q 0 then - (1) else 0.

Definition vec3_sub (a b : Vec3In) : Vec3In :=
  mkVec3 (x a - x b) (y a - y b) (z a - z b).

Definition vec3_cross (a b : Vec3In) : Vec3In :=
  mkVec3 (y a * z b - z a * y b) (z a * x b - x a * z b) (x a * y b - y a * x b).

(** Modelled from the spec: [vec3_polygonNormal] is missing from the sources
    at hand; the spec gives it as the unit normal of the first three points by
    the right-hand rule, [normalize((p1 - p0) x (p2 - p0))].  A unit normal is
    rational when the cross product lies along an axis, and then it is the
    vector of the signs; this model has a result for such polygons only,
    which is all the cube scenarios need. *)
Definition axis_polygonNormal (pts : list Vec3In) : option Vec3In :=
  match pts with
  | p0 :: p1 :: p2 :: _ =>
      let c := vec3_cross (vec3_sub p1 p0) (vec3_sub p2 p0) in
      let nonzero q := negb (Qeq_bool q 0) in
      match nonzero (x c), nonzero (y c), nonzero (z c) with
      | true, false, false | false, true, false | false, false, true =>
          Some (mkVec3 (Qsign (x c)) (Qsign (y c)) (Qsign (z c)))
      | _, _, _ => None
      end
  | _ => None
  end.

(** The axis-aligned cube of half-side [r] centred at [(cx, 0, 0)]: six
    quads, each wound so that its normal points outwards. *)
Definition cube (r cx : Q) : list Polygon :=
  let a := cx - r in
  let b := cx + r in
  [ mkPolygon 1 [V b (- r) (- r); V b r (- r); V b r r; V b (- r) r];
    mkPolygon 2 [V a (- r) (- r); V a (- r) r; V a r r; V a r (- r)];
    mkPolygon 3 [V a r (- r); V a r r; V b r r; V b r (- r)];
    mkPolygon 4 [V a (- r) (- r); V b (- r) (- r); V b (- r) r; V a (- r) r];
    mkPolygon 5 [V a (- r) r; V b (- r) r; V b r r; V a r r];
    mkPolygon 6 [V a (- r) (- r); V a r (- r); V b r (- r); V b (- r) (- r)] ].

(** The unit cube (side 1) and the cube of side 4, both centred at the
    origin. *)
Definition unit_cube : list Polygon := cube (1 # 2) 0.
Definition cube4 : list Polygon := cube 2 0.

(** [csg_polygons(op)], run from the empty heap. *)
Definition output_of (op : M (option TreeRef)) : option (list Polygon) :=
  option_map fst ((do t <- op; csg_polygons t) empty_heap).


(** [csg_polygons(csg_subtract(X, X))] *)
Definition subtract_self (X : list Polygon) : option (list Polygon) :=
  output_of (csg_subtract axis_polygonNormal
                          (Some (InPolygons X)) (Some (InPolygons X))).

(** Two quads: the first lies on [x = 0]; the second, in the plane [z = 0],
    reaches across it and is split when the tree is built. *)
Definition quad_on_x0 : Polygon :=
  mkPolygon 1 [V 0 0 0; V 0 1 0; V 0 1 1; V 0 0 1].

Definition quad_across_x0 : Polygon :=
  mkPolygon 2 [V (- (1)) 0 0; V 1 0 0; V 1 1 0; V (- (1)) 1 0].

Definition split_pair_output : option (list Polygon) :=
  output_of (csg_tree axis_polygonNormal
                      (Some (InPolygons [quad_on_x0; quad_across_x0]))).

(** A store with a polygon and the two fragments of its split. *)
Definition heap_siblings : Heap :=
  mkHeap [mkCSGPolygon quad_across_x0 false None;
          mkCSGPolygon (mkPolygon 2 [V 0 0 0; V 1 0 0; V 1 1 0; V 0 1 0])
                       false (Some 0%nat);
          mkCSGPolygon (mkPolygon 2 [V (- (1)) 0 0; V 0 0 0; V 0 1 0; V (- (1)) 1 0])
                       false (Some 0%nat)]
         [].

(** ** Frames *)

(** A computation relates the heap it starts from to the heap it ends in. *)
Definition preserves {A} (R : Heap -> Heap -> Prop) (m : St Heap A) : Prop :=
  forall (h : Heap) (a : A) (h' : Heap), m h = Some (a, h') -> R h h'.

(** No root is allocated, and only the trees under the roots [rs] are
    written. *)
Definition only_trees (rs : list TreeRef) (h h' : Heap) : Prop :=
  length (trees h') = length (trees h)
  /\ forall i : TreeRef, ~ In i rs -> trees h' !! i = trees h !! i.

(** [keeps rs m]: [m] writes no tree but those under [rs]. *)
Abbreviation keeps rs m := (preserves (only_trees rs) m).

(** A visitor that relates the heaps by [R] and leaves in [$front] and
    [$back] children the node already had. *)
Definition visitor_ok (R : Heap -> Heap -> Prop) (fn : Visitor Heap) : Prop :=
  forall (C : Type) (view : NodeView C) (h : Heap) (n : NodeView C) (h' : Heap),
    fn C view h = Some (n, h') ->
    R h h'
    /\ (v_front n = v_front view \/ v_front n = v_back view)
    /\ (v_back n = v_front view \/ v_back n = v_back view).



(** A tree of the unit cube at root 0, and a second cube that overlaps it. *)
Definition heap_unit_cube : Heap :=
  match csg_tree axis_polygonNormal (Some (InPolygons unit_cube)) empty_heap with
  | Some (_, h) => h
  | None => empty_heap
  end.

Definition shifted_cube : list Polygon := cube (1 # 2) (1 # 4).

(** ** Counting the vertices of a spanning split *)

(** A polygon spans a plane: a vertex strictly in front, one strictly behind. *)
Definition spans (plane : Plane) (pts : list Vec3In) : Prop :=
  Exists (fun p => PLANE_EPSILON < distance plane p) pts
  /\ Exists (fun p => distance plane p < - PLANE_EPSILON) pts.

(** No vertex is at signed distance exactly [PLANE_EPSILON] or
    [- PLANE_EPSILON]. *)
Definition off_threshold (plane : Plane) (p : Vec3In) : Prop :=
  ~ distance plane p == PLANE_EPSILON /\ ~ distance plane p == - PLANE_EPSILON.

(** Vertices strictly within [PLANE_EPSILON] of the plane. *)
Definition near (plane : Plane) (p : Vec3In) : bool :=
  Qltb (- PLANE_EPSILON) (distance plane p) && Qltb (distance plane p) PLANE_EPSILON.

Definition near_count (plane : Plane) (pts : list Vec3In) : nat :=
  length (List.filter (near plane) pts).

(** Edges that strictly straddle the plane, along [iv -> pts]. *)
Fixpoint straddle_count (plane : Plane) (iv : Vec3In) (pts : list Vec3In) : nat :=
  match pts with
  | [] => 0
  | jv :: rest =>
      (if straddles (distance plane iv) (distance plane jv) then 1 else 0)
      + straddle_count plane jv rest
  end.

(** The straddling edges of the closed loop of a polygon. *)
Definition straddling_edges (plane : Plane) (pts : list Vec3In) : nat :=
  match last pts with
  | Some iv => straddle_count plane iv pts
  | None => 0
  end.

(** How many points the loop pushes on each list, along [iv -> pts]. *)
Fixpoint front_pushes (plane : Plane) (iv : Vec3In) (pts : list Vec3In) : nat :=
  match pts with
  | [] => 0
  | jv :: rest =>
      (if Qltb (- PLANE_EPSILON) (distance plane iv) then 1 else 0)
      + (if straddles (distance plane iv) (distance plane jv) then 1 else 0)
      + front_pushes plane jv rest
  end.

Fixpoint back_pushes (plane : Plane) (iv : Vec3In) (pts : list Vec3In) : nat :=
  match pts with
  | [] => 0
  | jv :: rest =>
      (if Qltb (distance plane iv) PLANE_EPSILON then 1 else 0)
      + (if straddles (distance plane iv) (distance plane jv) then 1 else 0)
      + back_pushes plane jv rest
  end.

(** The side of the plane a signed distance is on. *)
Inductive Side := InFront | OnPlane | Behind.

Definition side_of (d : Q) : Side :=
  if Qltb PLANE_EPSILON d then InFront
  else if Qltb d (- PLANE_EPSILON) then Behind
  else OnPlane.

Definition is_front (s : Side) : bool :=
  match s with InFront => true | _ => false end.

Definition is_back (s : Side) : bool :=
  match s with Behind => true | _ => false end.

Definition crossing (a b : Side) : bool :=
  (is_back a && is_front b) || (is_front a && is_back b).

(** What the edge [a -> b] adds to the front list, to the back list. *)
Definition front_weight (a b : Side) : nat :=
  (if is_back a then 0 else 1) + (if crossing a b then 1 else 0).

Definition back_weight (a b : Side) : nat :=
  (if is_front a then 0 else 1) + (if crossing a b then 1 else 0).

Fixpoint walk (wt : Side -> Side -> nat) (cur : Side) (l : list Side) : nat :=
  match l with
  | [] => 0
  | s :: rest => wt cur s + walk wt s rest
  end.

(** The cheapest way from [a] to [b]: staying, one edge, or two. *)
Definition hop (wt : Side -> Side -> nat) (a b : Side) : nat :=
  let direct : nat := match a, b with
                      | InFront, InFront | OnPlane, OnPlane | Behind, Behind => 0%nat
                      | _, _ => wt a b
                      end in
  Nat.min direct
    (Nat.min (wt a InFront + wt InFront b)
       (Nat.min (wt a OnPlane + wt OnPlane b) (wt a Behind + wt Behind b)))%nat.

(** A lower bound on the weight of a walk from [c] to [e] that meets the
    front side ([sF]) and the back side ([sB]). *)
Definition lower (wt : Side -> Side -> nat) (c e : Side) (sF sB : bool) : nat :=
  (match sF, sB with
   | false, false => hop wt c e
   | true, false => hop wt c InFront + hop wt InFront e
   | false, true => hop wt c Behind + hop wt Behind e
   | true, true =>
       Nat.min (hop wt c InFront + hop wt InFront Behind + hop wt Behind e)
               (hop wt c Behind + hop wt Behind InFront + hop wt InFront e)
   end)%nat.

(** A triangle across [x = 0]: two vertices in front, one behind. *)
Definition triangle : list Vec3In := [V 1 0 0; V 1 1 0; V (- (1)) 0 0].

Definition heap_triangle : Heap :=
  mkHeap [mkCSGPolygon (mkPolygon 1 triangle) false None] [].

(** The fragment of [polygon] (whose object is [p]) with the points [pts]. *)
Definition fragment (p : CSGPolygon) (polygon : PolyRef) (pts : list Vec3In)
  : CSGPolygon :=
  mkCSGPolygon (mkPolygon (color p) pts) (flipped p) (Some polygon).

(** ** Vocabulary of further properties *)

(** Some vertex is strictly in front of the plane, strictly behind it. *)
Definition reaches_front (plane : Plane) (pts : list Vec3In) : Prop :=
  Exists (fun p => PLANE_EPSILON < distance plane p) pts.

Definition reaches_back (plane : Plane) (pts : list Vec3In) : Prop :=
  Exists (fun p => distance plane p < - PLANE_EPSILON) pts.

(** The parameter [t] of the point where an edge meets the plane. *)
Definition intersection_t (plane : Plane) (iv jv : Vec3In) : Q :=
  - distance plane iv / split_denominator plane iv jv.

(** Every polygon object of [h] is still in [h'], with the points, the colour
    and the parent it had. *)
Definition polygons_kept (h h' : Heap) : Prop :=
  forall (i : PolyRef) (p : CSGPolygon),
    polys h !! i = Some p ->
    exists p' : CSGPolygon,
      polys h' !! i = Some p'
      /\ polygon_of p' = polygon_of p /\ parent p' = parent p.

(** The store of [h'] is the store of [h] with new objects after it. *)
Definition store_grows (h h' : Heap) : Prop :=
  exists extra : list CSGPolygon, polys h' = polys h ++ extra.

(** [parents_older] is kept. *)
Definition keeps_parents_older (h h' : Heap) : Prop :=
  parents_older h -> parents_older h'.

(** [r] is [i] or one of the polygons [i] descends from by splits. *)
Inductive ancestor (h : Heap) : PolyRef -> PolyRef -> Prop :=
| ancestor_self (i : PolyRef) : ancestor h i i
| ancestor_parent (i q r : PolyRef) (p : CSGPolygon) :
    polys h !! i = Some p -> parent p = Some q ->
    ancestor h q r -> ancestor h i r.

(** [t'] is [t] grown: the same planes at the same places, every bundle of
    [t] with possibly more polygons after it, possibly new nodes where [t]
    had none. *)
Inductive extends : CSGTree -> CSGTree -> Prop :=
| extends_null (t' : CSGTree) : extends Null t'
| extends_node (plane : Plane) (ps extra : list PolyRef)
    (front front' back back' : CSGTree) :
    extends front front' -> extends back back' ->
    extends (Node plane ps front back) (Node plane (ps ++ extra) front' back').

(** A tree without its bundles: the planes and the shape. *)
Fixpoint skeleton (t : CSGTree) : CSGTree :=
  match t with
  | Null => Null
  | Node plane _ front back => Node plane [] (skeleton front) (skeleton back)
  end.

(** The tree under the root [r] has only grown. *)
Definition target_extends (r : TreeRef) (h h' : Heap) : Prop :=
  forall t0 : CSGTree,
    trees h !! r = Some t0 ->
    exists t1 : CSGTree, trees h' !! r = Some t1 /\ extends t0 t1.

(** What [csg_polygons] writes for a polygon that reaches the output as it
    is stored: its colour, and its points in reverse order when it is
    flipped. *)
Definition emitted (p : CSGPolygon) : Polygon :=
  mkPolygon (color p) (if flipped p then rev (points p) else points p).

(** A polygon object that is no fragment of a split. *)
Definition parentless (h : Heap) (r : PolyRef) : Prop :=
  exists p : CSGPolygon, polys h !! r = Some p /\ parent p = None.

(** The entry [allPolygons] holds for a polygon stored as it is. *)
Definition entry_of (h : Heap) (r : PolyRef) : PolyRef * bool :=
  match polys h !! r with
  | Some p => (r, flipped p)
  | None => (r, false)
  end.

(** ** The arithmetic of the spanning split in binary64 *)

(** The source computes on JavaScript numbers, IEEE 754 binary64 with
    rounding to nearest, ties to even: the primitive floats. *)
Record Vec3F := mkVec3F { fx : float; fy : float; fz : float }.

Record PlaneF := mkPlaneF { fnormal :> Vec3F; fw : float }.

(** Modelled from the spec: [vec3_dot], as above, with the products summed
    from left to right. *)
Definition vec3_dot_f64 (a b : Vec3F) : float :=
  (fx a * fx b + fy a * fy b + fz a * fz b)%float.

(** [0.00008]: the double nearest to it. *)
Definition PLANE_EPSILON_f64 : float := 0x1.4f8b588e368f1p-14%float.

(** [vec3_dot(plane, v) - plane.w] *)
Definition distance_f64 (plane : PlaneF) (v : Vec3F) : float :=
  (vec3_dot_f64 plane v - fw plane)%float.

Definition straddles_f64 (d jd : float) : bool :=
  ((d <? - PLANE_EPSILON_f64)%float && (PLANE_EPSILON_f64 <? jd)%float)
  || ((PLANE_EPSILON_f64 <? d)%float && (jd <? - PLANE_EPSILON_f64)%float).

Definition split_denominator_f64 (plane : PlaneF) (iv jv : Vec3F) : float :=
  (fx plane * (fx jv - fx iv) + fy plane * (fy jv - fy iv)
   + fz plane * (fz jv - fz iv))%float.

Definition intersection_f64 (plane : PlaneF) (iv jv : Vec3F) (d : float)
  : Vec3F :=
  let t := (- d / split_denominator_f64 plane iv jv)%float in
  mkVec3F ((fx jv - fx iv) * t + fx iv)%float
          ((fy jv - fy iv) * t + fy iv)%float
          ((fz jv - fz iv) * t + fz iv)%float.















(** The plane [x = 0] and the edge from [(-9970076784718, 0, 0)] to
    [(8838771433928, 1, 0)]. *)
Definition plane_x0_f64 : PlaneF := mkPlaneF (mkVec3F 1 0 0) 0.

Definition edge_far_from : Vec3F := mkVec3F (-9970076784718)%float 0 0.

Definition edge_far_to : Vec3F := mkVec3F 8838771433928%float 1 0.

(** ** Vocabulary of the output extraction *)











(** ** Vocabulary of the in-place operations *)




(** The tree under [r] keeps its planes and its shape, with possibly new
    nodes where it had none. *)
Definition shape_kept (r : TreeRef) (h h' : Heap) : Prop :=
  forall t0 : CSGTree,
    trees h !! r = Some t0 ->
    exists t1 : CSGTree,
      trees h' !! r = Some t1 /\ extends (skeleton t0) (skeleton t1).


(** * Properties *)

(** ** Comparisons *)

Lemma Qltb_lt (a b : Q) : Qltb a b = true <-> a < b.
Proof.
  unfold Qltb. rewrite negb_true_iff. split.
  - intros H. apply Qnot_le_lt. intros Hle.
    apply Qle_bool_iff in Hle. congruence.
  - intros H. destruct (Qle_bool b a) eqn:E; [|reflexivity].
    apply Qle_bool_iff in E. lra.
Qed.

Lemma Qltb_ge (a b : Q) : Qltb a b = false <-> b <= a.
Proof.
  unfold Qltb. rewrite negb_false_iff. apply Qle_bool_iff.
Qed.


Lemma PLANE_EPSILON_pos : 0 < PLANE_EPSILON.
Proof. reflexivity. Qed.

(** ** The polygon splitter *)

Lemma split_denominator_distance (plane : Plane) (iv jv : Vec3In) :
  split_denominator plane iv jv == distance plane jv - distance plane iv.
Proof. unfold split_denominator, distance, vec3_dot. ring. Qed.

Lemma straddles_spec (d jd : Q) :
  straddles d jd = true <->
  (d < - PLANE_EPSILON /\ PLANE_EPSILON < jd)
  \/ (PLANE_EPSILON < d /\ jd < - PLANE_EPSILON).
Proof.
  unfold straddles.
  rewrite orb_true_iff, !andb_true_iff, !Qltb_lt. tauto.
Qed.

(** In exact arithmetic the divisor [normal . (jv - iv)] is the difference
    of the two distances, so on a strictly straddling edge it is beyond
    [2 * PLANE_EPSILON] on one side of zero. *)
Lemma split_denominator_exact (plane : Plane) (iv jv : Vec3In) :
  straddles (vec3_dot plane iv - w plane) (vec3_dot plane jv - w plane) = true ->
  ~ split_denominator plane iv jv == 0.
Proof.
  intros Hs Hz.
  rewrite split_denominator_distance in Hz.
  apply straddles_spec in Hs.
  pose proof PLANE_EPSILON_pos as He.
  unfold distance in Hz.
  destruct Hs as [[H1 H2]|[H1 H2]]; lra.
Qed.

(** What one iteration pushes: [iv] goes to the front list when [d] is
    strictly above [- PLANE_EPSILON], to the back list when [d] is strictly
    below [PLANE_EPSILON]. *)
Lemma span_step_front (plane : Plane) (st : SpanState) (jv : Vec3In) :
  In (s_iv st) (fpoints (span_step plane st jv)) <->
  - PLANE_EPSILON < s_d st \/ In (s_iv st) (fpoints st)
  \/ (straddles (s_d st) (distance plane jv) = true
      /\ s_iv st = intersection plane (s_iv st) jv (s_d st)).
Proof.
  unfold span_step, distance.
  destruct (Qltb (- PLANE_EPSILON) (s_d st)) eqn:E1;
    destruct (straddles (s_d st) _) eqn:E2; simpl;
    rewrite ?in_app_iff; simpl;
    try (apply Qltb_lt in E1); try (apply Qltb_ge in E1);
    intuition (try congruence; try lra).
Qed.

(** C3, at the failing input: a vertex at signed distance exactly
    [- PLANE_EPSILON] is not emitted into the front list (only into the back
    list), and the front fragment of the triangle is lost. *)
Theorem splitSpanning_vertex_at_minus_epsilon :
  let B := V (- PLANE_EPSILON) 1 0 in
  let st := span_loop plane_x0 edge_triangle (V (- (1)) 0 0) in
  last edge_triangle = Some (V (- (1)) 0 0)
  /\ - PLANE_EPSILON <= distance plane_x0 B
  /\ ~ In B (fpoints st)
  /\ In B (bpoints st)
  /\ length (fpoints st) = 2%nat
  /\ option_map fst (CSGPolygon_split plane_x0 0 heap_edge_triangle)
     = Some (mkSplit None (Some 1%nat)).
Proof.
  cbv zeta. split; [reflexivity|]. split; [vm_compute; discriminate|].
  split.
  - vm_compute. intros [H|[H|[]]]; discriminate H.
  - split; [vm_compute; tauto|]. split; reflexivity.
Qed.

(** ** The classification pass *)

Lemma classify_step_on_plane (plane : Plane) (fb : bool * bool) (p : Vec3In) :
  - PLANE_EPSILON <= distance plane p ->
  distance plane p <= PLANE_EPSILON ->
  classify_step plane fb p = fb.
Proof.
  intros H1 H2. unfold classify_step. fold (distance plane p).
  apply Qltb_ge in H1, H2. rewrite H1, H2. reflexivity.
Qed.

Lemma classify_on_plane (plane : Plane) (pts : list Vec3In) :
  on_plane plane pts -> classify plane pts = (false, false).
Proof.
  intros Hon. unfold classify.
  enough (forall fb, fold_left (classify_step plane) pts fb = fb) as E
    by apply E.
  induction Hon as [|q qs [H1 H2] _ IH]; intros fb; simpl.
  - reflexivity.
  - rewrite classify_step_on_plane by assumption. apply IH.
Qed.

Lemma CSGPolygon_split_on_plane (h : Heap) (plane : Plane) (polygon : PolyRef)
    (p : CSGPolygon) :
  polys h !! polygon = Some p ->
  on_plane plane (points p) ->
  CSGPolygon_split plane polygon h = Some (mkSplit None None, h).
Proof.
  intros Hp Hon. unfold CSGPolygon_split, st_bind, get_polygon.
  rewrite Hp, (classify_on_plane _ _ Hon). reflexivity.
Qed.

(** ** The builder *)

(** C6: a polygon all of whose vertices lie within [PLANE_EPSILON] of the
    plane of a node is appended to that node's bundle; both children (and the
    store) are left as they were. *)
Theorem addPolygon_on_plane (h : Heap) (plane : Plane) (polygons : list PolyRef)
    (front back : CSGTree) (polygon : PolyRef) (p : CSGPolygon)
    (polygonNormal : Vec3In) (planeW : Q) :
  polys h !! polygon = Some p ->
  on_plane plane (points p) ->
  csg_tree_addPolygon (Node plane polygons front back) polygon
                      polygonNormal planeW h
  = Some (Node plane (polygons ++ [polygon]) front back, h).
Proof.
  intros Hp Hon. simpl. unfold st_bind.
  rewrite (CSGPolygon_split_on_plane _ _ _ _ Hp Hon). reflexivity.
Qed.

Lemma addPolygon_on_plane_witness :
  csg_tree_addPolygon (Node plane_x2 [] Null Null) 0 (V 1 0 0) 2 heap_quad_x2
  = Some (Node plane_x2 [0%nat] Null Null, heap_quad_x2).
Proof.
  apply (addPolygon_on_plane heap_quad_x2 plane_x2 [] Null Null 0 quad_x2).
  - reflexivity.
  - repeat constructor; vm_compute; discriminate.
Defined.

(** ** The clipper *)

Lemma st_bind_ret {S A} (m : St S A) (s : S) :
  st_bind m (fun a => st_ret a) s = m s.
Proof. unfold st_bind, st_ret. destruct (m s) as [[a s']|]; reflexivity. Qed.

Lemma routed_front_iff (node : Plane) (polygon : PolyRef) (polygonPlane : Plane) :
  routed_front node polygon polygonPlane <-> w node < vec3_dot node polygonPlane.
Proof.
  unfold routed_front, coplanar_route. simpl.
  destruct (Qltb (w node) (vec3_dot node polygonPlane)) eqn:E.
  - apply Qltb_lt in E. tauto.
  - apply Qltb_ge in E. split; [discriminate | lra].
Qed.

Lemma routed_back_iff (node : Plane) (polygon : PolyRef) (polygonPlane : Plane) :
  routed_back node polygon polygonPlane <-> vec3_dot node polygonPlane <= w node.
Proof.
  unfold routed_back, coplanar_route. simpl.
  destruct (Qltb (w node) (vec3_dot node polygonPlane)) eqn:E.
  - apply Qltb_lt in E. split; [discriminate | lra].
  - apply Qltb_ge in E. tauto.
Qed.

(** C1, at the failing input: on the plane [x = 2] (normal (1, 0, 0),
    [w = 2]) a coplanar polygon facing the same way as the node (the dot
    product of the two normals is 1, above 0) is not routed front.  The
    tie-break compares the dot product with the node's [w]; 1 > 2 fails, so
    the polygon is routed back and, the node having no back child, discarded.
    The same polygon shape on the plane [x = 0], where [w = 0], is routed
    front and survives. *)
Theorem clip_same_facing_routed_back :
  CSGPolygon_split plane_x2 0 heap_quad_x2
  = Some (mkSplit None None, heap_quad_x2)
  /\ same_facing plane_x2 plane_x2
  /\ 0 < vec3_dot plane_x2 plane_x2
  /\ ~ w plane_x2 < vec3_dot plane_x2 plane_x2
  /\ ~ routed_front plane_x2 0 plane_x2
  /\ routed_back plane_x2 0 plane_x2
  /\ csg_tree_clipPolygon (Node plane_x2 [] Null Null) 0 plane_x2 [] heap_quad_x2
     = Some ([], heap_quad_x2)
  /\ csg_tree_clipPolygon (Node plane_x0 [] Null Null) 0 plane_x0 []
       (mkHeap [mkCSGPolygon (mkPolygon 1 [V 0 0 0; V 0 1 0; V 0 1 1; V 0 0 1])
                             false None] [])
     = Some ([0%nat],
             mkHeap [mkCSGPolygon (mkPolygon 1 [V 0 0 0; V 0 1 0; V 0 1 1; V 0 0 1])
                                  false None] []).
Proof.
  split; [reflexivity|]. split; [reflexivity|]. split; [reflexivity|].
  split; [vm_compute; intros H; discriminate H|].
  split; [|repeat split; reflexivity].
  rewrite routed_front_iff. vm_compute. intros H. discriminate H.
Qed.

(** ** Tree flip *)

Lemma Qmult_m1_m1 (q : Q) : q * -1 * -1 = q.
Proof.
  destruct q as [n d]. unfold Qmult. simpl.
  rewrite !Pos.mul_1_r. f_equal. lia.
Qed.

Lemma negated_involutive (p : Plane) : negated (negated p) = p.
Proof.
  destruct p as [[a b c] d]. unfold negated. simpl.
  rewrite !Qmult_m1_m1. reflexivity.
Qed.

Lemma flipped_tree_involutive (t : CSGTree) : flipped_tree (flipped_tree t) = t.
Proof.
  induction t as [|plane polygons front IHf back IHb]; simpl.
  - reflexivity.
  - rewrite negated_involutive, IHf, IHb. reflexivity.
Qed.

Lemma toggled_involutive (p : CSGPolygon) : toggled (toggled p) = p.
Proof. destruct p as [q f pa]. unfold toggled. simpl. rewrite negb_involutive. reflexivity. Qed.

Lemma length_toggle_at (r : PolyRef) (s : list CSGPolygon) :
  length (toggle_at r s) = length s.
Proof.
  unfold toggle_at. destruct (s !! r); [apply length_insert | reflexivity].
Qed.

Lemma length_toggle_all (rs : list PolyRef) (s : list CSGPolygon) :
  length (toggle_all rs s) = length s.
Proof.
  revert s. induction rs as [|r rs IH]; intros s; simpl.
  - reflexivity.
  - unfold toggle_all in IH. rewrite IH. apply length_toggle_at.
Qed.

Lemma toggle_all_app (rs1 rs2 : list PolyRef) (s : list CSGPolygon) :
  toggle_all (rs1 ++ rs2) s = toggle_all rs2 (toggle_all rs1 s).
Proof. unfold toggle_all. apply fold_left_app. Qed.

Lemma lookup_toggle_at (r i : PolyRef) (s : list CSGPolygon) :
  toggle_at r s !! i
  = (fun p => if Nat.eq_dec r i then toggled p else p) <$> (s !! i).
Proof.
  unfold toggle_at. destruct (Nat.eq_dec r i) as [->|Hne].
  - destruct (s !! i) as [p|] eqn:E.
    + rewrite list_lookup_insert_eq by (eapply lookup_lt_Some; exact E).
      reflexivity.
    + rewrite ?E. reflexivity.
  - destruct (s !! r) as [p|] eqn:E.
    + rewrite list_lookup_insert_ne by assumption.
      destruct (s !! i); reflexivity.
    + destruct (s !! i); reflexivity.
Qed.

Lemma lookup_toggle_all (rs : list PolyRef) (i : PolyRef) (s : list CSGPolygon) :
  toggle_all rs s !! i
  = (fun p => if Nat.odd (count_occ Nat.eq_dec rs i) then toggled p else p)
      <$> (s !! i).
Proof.
  revert s. induction rs as [|r rs IH]; intros s.
  - simpl. destruct (s !! i); reflexivity.
  - change (toggle_all (r :: rs) s) with (toggle_all rs (toggle_at r s)).
    rewrite IH, lookup_toggle_at. simpl count_occ.
    destruct (s !! i) as [p|]; [|reflexivity]. simpl.
    destruct (Nat.eq_dec r i) as [_|_]; [|reflexivity].
    rewrite Nat.odd_succ, <- Nat.negb_odd.
    destruct (Nat.odd _); simpl; rewrite ?toggled_involutive; reflexivity.
Qed.

Lemma flip_bundle (ps : list PolyRef) (h : Heap) :
  Forall (fun r => (r < length (polys h))%nat) ps ->
  for_of ps (fun polygon =>
               do p <- get_polygon polygon;
               set_flipped polygon (negb (flipped p))) h
  = Some (tt, mkHeap (toggle_all ps (polys h)) (trees h)).
Proof.
  revert h. induction ps as [|r ps IH]; intros h Hv.
  - destruct h. reflexivity.
  - inversion Hv as [|? ? Hr Hps]; subst.
    apply lookup_lt_is_Some in Hr. destruct Hr as [p Hp].
    simpl. unfold st_bind at 1. unfold st_bind at 1.
    unfold get_polygon at 1. rewrite Hp.
    unfold set_flipped at 1. rewrite Hp.
    rewrite IH.
    + simpl. unfold toggle_at. rewrite Hp. reflexivity.
    + simpl. rewrite length_insert. exact Hps.
Qed.

Lemma flip_each (t : CSGTree) (h : Heap) :
  tree_in_heap h t ->
  csg_tree_each t flip_node h
  = Some (flipped_tree t, mkHeap (toggle_all (flip_order t) (polys h)) (trees h)).
Proof.
  revert h. induction t as [|plane polygons front IHf back IHb]; intros h Hv.
  - destruct h. reflexivity.
  - unfold tree_in_heap in Hv. simpl in Hv.
    apply Forall_app in Hv. destruct Hv as [Hps Hv].
    apply Forall_app in Hv. destruct Hv as [Hfv Hbv].
    cbn [csg_tree_each]. unfold st_bind at 1. unfold flip_node at 1.
    unfold st_bind at 1. cbn [v_polygons]. rewrite (flip_bundle _ _ Hps).
    unfold st_ret at 1. cbn [v_front v_back v_plane v_polygons].
    unfold st_bind at 1. rewrite IHb.
    + unfold st_bind at 1. rewrite IHf.
      * unfold st_ret. simpl. rewrite !toggle_all_app. reflexivity.
      * unfold tree_in_heap. simpl. rewrite !length_toggle_all. exact Hfv.
    + unfold tree_in_heap. simpl. rewrite length_toggle_all. exact Hbv.
Qed.

Lemma count_flip_order (r : PolyRef) (t : CSGTree) :
  count_occ Nat.eq_dec (flip_order t) r = occurrences r t.
Proof.
  unfold occurrences.
  induction t as [|plane polygons front IHf back IHb]; simpl.
  - reflexivity.
  - rewrite !count_occ_app, IHf, IHb. lia.
Qed.

Lemma occurrences_flipped (r : PolyRef) (t : CSGTree) :
  occurrences r (flipped_tree t) = occurrences r t.
Proof.
  unfold occurrences.
  induction t as [|plane polygons front IHf back IHb]; simpl.
  - reflexivity.
  - rewrite !count_occ_app, IHf, IHb. lia.
Qed.

Lemma tree_in_heap_flipped (h h' : Heap) (t : CSGTree) :
  length (polys h') = length (polys h) ->
  tree_in_heap h t -> tree_in_heap h' (flipped_tree t).
Proof.
  unfold tree_in_heap. intros ->.
  induction t as [|plane polygons front IHf back IHb]; simpl.
  - constructor.
  - rewrite !Forall_app. tauto.
Qed.

Lemma flip_in_place (h : Heap) (root : TreeRef) (t : CSGTree) :
  trees h !! root = Some t ->
  tree_in_heap h t ->
  csg_tree_flip (Some root) h
  = Some (tt, mkHeap (toggle_all (flip_order t) (polys h))
                     (<[root := flipped_tree t]> (trees h))).
Proof.
  intros Ht Hv. unfold csg_tree_flip, in_place.
  unfold st_bind at 1. unfold get_tree at 1. rewrite Ht.
  unfold st_bind at 1. rewrite (flip_each _ _ Hv).
  unfold set_tree. simpl. rewrite Ht. reflexivity.
Qed.

(** C5: flipping the tree under [root] negates every plane and swaps the
    children of every node ([flipped_tree]), and toggles [$flipped] once for
    every place a polygon is stored at (so a polygon stored once is toggled);
    flipping again restores the heap: the tree and every polygon. *)
Theorem csg_tree_flip_involutive (h : Heap) (root : TreeRef) (t : CSGTree) :
  trees h !! root = Some t ->
  tree_in_heap h t ->
  exists h1 : Heap,
    csg_tree_flip (Some root) h = Some (tt, h1)
    /\ trees h1 = <[root := flipped_tree t]> (trees h)
    /\ (forall (r : PolyRef) (p : CSGPolygon),
          polys h !! r = Some p ->
          polys h1 !! r
          = Some (if Nat.odd (occurrences r t) then toggled p else p))
    /\ csg_tree_flip (Some root) h1 = Some (tt, h).
Proof.
  intros Ht Hv.
  eexists. split; [apply flip_in_place; eassumption|].
  split; [reflexivity|]. split.
  - intros r p Hp. simpl.
    rewrite lookup_toggle_all, Hp, count_flip_order. reflexivity.
  - rewrite (flip_in_place _ root (flipped_tree t)).
    + f_equal. f_equal. destruct h as [ps ts]. simpl in *. f_equal.
      * apply list_eq. intros i.
        rewrite !lookup_toggle_all, !count_flip_order, occurrences_flipped.
        destruct (ps !! i) as [p|]; [|reflexivity]. simpl.
        destruct (Nat.odd _); rewrite ?toggled_involutive; reflexivity.
      * rewrite list_insert_insert_eq, flipped_tree_involutive.
        apply list_insert_id. exact Ht.
    + simpl. apply list_lookup_insert_eq.
      eapply lookup_lt_Some. exact Ht.
    + eapply tree_in_heap_flipped; [|exact Hv].
      simpl. apply length_toggle_all.
Qed.

Lemma csg_tree_flip_involutive_witness :
  exists h1 : Heap,
    csg_tree_flip (Some 0%nat) heap_two_nodes = Some (tt, h1)
    /\ trees h1 = <[0%nat := flipped_tree two_node_tree]> (trees heap_two_nodes)
    /\ (forall (r : PolyRef) (p : CSGPolygon),
          polys heap_two_nodes !! r = Some p ->
          polys h1 !! r
          = Some (if Nat.odd (occurrences r two_node_tree)
                  then toggled p else p))
    /\ csg_tree_flip (Some 0%nat) h1 = Some (tt, heap_two_nodes).
Proof.
  apply (csg_tree_flip_involutive heap_two_nodes 0 two_node_tree).
  - reflexivity.
  - repeat constructor.
Defined.

(** ** The boolean operations *)

(** C2, at the failing input: for a single input that is a polygon list
    [reduce] returns the list itself, not a tree; from two inputs on the
    result is the left fold of the pairwise union. *)
Theorem csg_union_single_polygon_list
    (normal : list Vec3In -> option Vec3In) (ps : list Polygon) (h : Heap) :
  csg_union normal [InPolygons ps] h = Some (Some (InPolygons ps), h)
  /\ forall (a b : CSGInput) (rest : list CSGInput),
       csg_union normal (a :: b :: rest) h
       = (do r <- csg_union_op normal (Some a) (Some b);
          fold_of rest (option_map InNode r) (fun acc cur =>
            do r' <- csg_union_op normal acc (Some cur);
            st_ret (option_map InNode r'))) h.
Proof.
  split; [reflexivity|].
  intros a b rest. simpl. unfold st_bind.
  destruct (csg_union_op normal (Some a) (Some b) h) as [[r h']|]; reflexivity.
Qed.

(** C9, at the failing input: subtracting the cube of side 4 from itself
    leaves six polygons (the unit cube does come out empty). *)
Theorem subtract_self_cube4 :
  option_map (@length Polygon) (subtract_self cube4) = Some 6%nat
  /\ subtract_self unit_cube = Some [].
Proof. split; vm_compute; reflexivity. Qed.

(** ** Output extraction *)

(** The fuel [csg_polygons] gives [add] is enough: in a store where parents
    are older than their fragments, [add] returns for every polygon of the
    store. *)
Lemma add_enough_fuel (h : Heap) (fuel : nat) (polygon : PolyRef) (c : Collect) :
  parents_older h ->
  (polygon < fuel)%nat ->
  (polygon < length (polys h))%nat ->
  exists (r : PolyRef) (c' : Collect), add h fuel polygon c = Some (r, c').
Proof.
  intros Hwf. revert polygon c.
  induction fuel as [|fuel IH]; intros polygon c Hlt Hin; [lia|].
  apply lookup_lt_is_Some in Hin. destruct Hin as [p Hp].
  simpl. unfold st_bind, read_polygon. rewrite Hp.
  destruct (parent p) as [q|] eqn:Hq; [|eexists; eexists; reflexivity].
  pose proof (Hwf _ _ _ Hp Hq) as Hold.
  destruct (byParent c !! q); [|eexists; eexists; reflexivity].
  apply IH; [lia|].
  apply lookup_lt_Some in Hp. lia.
Qed.

(** A polygon split while the tree is built comes out whole: its two
    fragments are replaced by the polygon they were split from. *)
Lemma split_pair_coalesced :
  option_map (map color) split_pair_output = Some [1%Z; 2%Z]
  /\ option_map (map (fun p => length (points p))) split_pair_output
     = Some [4%nat; 4%nat].
Proof. split; vm_compute; reflexivity. Qed.

(** ** Frames: which trees an operation writes *)

Section Preservation.

Variable R : Heap -> Heap -> Prop.
Hypothesis R_refl : forall h, R h h.
Hypothesis R_trans : forall h1 h2 h3, R h1 h2 -> R h2 h3 -> R h1 h3.

Lemma preserves_ret {A} (a : A) : preserves R (st_ret a).
Proof. intros h a' h' E. inversion E; subst. apply R_refl. Qed.

Lemma preserves_throw {A} : preserves R (@throw Heap A).
Proof. intros h a h' E. discriminate E. Qed.

Lemma preserves_bind {A B} (m : St Heap A) (k : A -> St Heap B) :
  preserves R m -> (forall a, preserves R (k a)) -> preserves R (st_bind m k).
Proof.
  intros Hm Hk h b h' E. unfold st_bind in E.
  destruct (m h) as [[a h1]|] eqn:E1; [|discriminate E].
  eapply R_trans; [eapply Hm; exact E1 | eapply Hk; exact E].
Qed.

Lemma preserves_for_of {A} (l : list A) (body : A -> St Heap unit) :
  (forall a, preserves R (body a)) -> preserves R (for_of l body).
Proof.
  intros Hb. induction l as [|a l IH]; simpl.
  - apply preserves_ret.
  - apply preserves_bind; [apply Hb | intros _; exact IH].
Qed.

Lemma preserves_fold_of {A B} (l : list A) (acc : B)
    (body : B -> A -> St Heap B) :
  (forall b a, preserves R (body b a)) -> preserves R (fold_of l acc body).
Proof.
  intros Hb. revert acc. induction l as [|a l IH]; intros acc; simpl.
  - apply preserves_ret.
  - apply preserves_bind; [apply Hb | intros acc'; apply IH].
Qed.

Lemma preserves_each (fn : Visitor Heap) (t : CSGTree) :
  visitor_ok R fn -> preserves R (csg_tree_each t fn).
Proof.
  intros Hfn. induction t as [|plane polygons front IHf back IHb]; simpl.
  - apply preserves_ret.
  - intros h a h' E. unfold st_bind at 1 in E.
    destruct (fn _ _ h) as [[n h1]|] eqn:E1; [|discriminate E].
    apply Hfn in E1. simpl in E1. destruct E1 as (HR & Hf & Hb).
    eapply R_trans; [exact HR|]. revert E.
    apply preserves_bind.
    + destruct Hf as [-> | ->]; assumption.
    + intros f'. apply preserves_bind.
      * destruct Hb as [-> | ->]; assumption.
      * intros b'. apply preserves_ret.
Qed.

End Preservation.

Lemma only_trees_refl (rs : list TreeRef) (h : Heap) : only_trees rs h h.
Proof. split; reflexivity. Qed.

Lemma only_trees_trans (rs : list TreeRef) (h1 h2 h3 : Heap) :
  only_trees rs h1 h2 -> only_trees rs h2 h3 -> only_trees rs h1 h3.
Proof.
  intros [L1 F1] [L2 F2]. split; [congruence|].
  intros i Hi. rewrite F2, F1 by assumption. reflexivity.
Qed.

Lemma only_trees_same (rs : list TreeRef) (h h' : Heap) :
  trees h' = trees h -> only_trees rs h h'.
Proof. intros E. unfold only_trees. rewrite E. split; reflexivity. Qed.

Lemma keeps_ret {A} rs (a : A) : keeps rs (st_ret a).
Proof. apply preserves_ret, only_trees_refl. Qed.

Lemma keeps_bind {A B} rs (m : St Heap A) (k : A -> St Heap B) :
  keeps rs m -> (forall a, keeps rs (k a)) -> keeps rs (st_bind m k).
Proof. apply preserves_bind, only_trees_trans. Qed.

Lemma keeps_get_polygon rs (r : PolyRef) : keeps rs (get_polygon r).
Proof.
  intros h a h' E. unfold get_polygon in E.
  destruct (polys h !! r); inversion E; subst. apply only_trees_refl.
Qed.

Lemma keeps_new_polygon rs (p : CSGPolygon) : keeps rs (new_polygon p).
Proof.
  intros h a h' E. inversion E; subst. apply only_trees_same. reflexivity.
Qed.


Lemma keeps_get_tree rs (r : TreeRef) : keeps rs (get_tree r).
Proof.
  intros h a h' E. unfold get_tree in E.
  destruct (trees h !! r); inversion E; subst. apply only_trees_refl.
Qed.

Lemma keeps_tree_at rs (r : option TreeRef) : keeps rs (tree_at r).
Proof. destruct r; [apply keeps_get_tree | apply keeps_ret]. Qed.

Lemma keeps_set_tree rs (r : TreeRef) (t : CSGTree) :
  In r rs -> keeps rs (set_tree r t).
Proof.
  intros Hr h a h' E. unfold set_tree in E.
  destruct (trees h !! r); inversion E; subst. simpl. split.
  - apply length_insert.
  - intros i Hi. apply list_lookup_insert_ne. intros ->. contradiction.
Qed.

Lemma keeps_for_of {A} rs (l : list A) (body : A -> St Heap unit) :
  (forall a, keeps rs (body a)) -> keeps rs (for_of l body).
Proof. apply preserves_for_of; [apply only_trees_refl | apply only_trees_trans]. Qed.

Lemma keeps_fold_of {A B} rs (l : list A) (acc : B) (body : B -> A -> St Heap B) :
  (forall b a, keeps rs (body b a)) -> keeps rs (fold_of l acc body).
Proof. apply preserves_fold_of; [apply only_trees_refl | apply only_trees_trans]. Qed.

Lemma keeps_splitSpanning rs (plane : Plane) (polygon : PolyRef) :
  keeps rs (CSGPolygon_splitSpanning plane polygon).
Proof.
  unfold CSGPolygon_splitSpanning.
  apply keeps_bind; [apply keeps_get_polygon | intros p].
  destruct (last (points p)); [|apply preserves_throw].
  apply keeps_bind.
  - destruct (_ <? _)%nat; [|apply keeps_ret].
    apply keeps_bind; [apply keeps_new_polygon | intros; apply keeps_ret].
  - intros f. apply keeps_bind.
    + destruct (_ <? _)%nat; [|apply keeps_ret].
      apply keeps_bind; [apply keeps_new_polygon | intros; apply keeps_ret].
    + intros b. apply keeps_ret.
Qed.

Lemma keeps_split rs (plane : Plane) (polygon : PolyRef) :
  keeps rs (CSGPolygon_split plane polygon).
Proof.
  unfold CSGPolygon_split.
  apply keeps_bind; [apply keeps_get_polygon | intros p].
  destruct (_ && _); [apply keeps_splitSpanning | apply keeps_ret].
Qed.

Lemma keeps_addPolygon rs (node : CSGTree) (polygon : PolyRef)
    (polygonNormal : Vec3In) (planeW : Q) :
  keeps rs (csg_tree_addPolygon node polygon polygonNormal planeW).
Proof.
  revert polygon.
  induction node as [|plane polygons front IHf back IHb]; intros polygon; simpl.
  - apply keeps_ret.
  - apply keeps_bind; [apply keeps_split | intros sp].
    apply keeps_bind; [destruct (sfront sp); [apply IHf | apply keeps_ret]|].
    intros f'.
    apply keeps_bind; [destruct (sback sp); [apply IHb | apply keeps_ret]|].
    intros b'. apply keeps_ret.
Qed.

Lemma keeps_clipPolygon rs (node : CSGTree) (polygon : PolyRef)
    (polygonPlane : Plane) (result : list PolyRef) :
  keeps rs (csg_tree_clipPolygon node polygon polygonPlane result).
Proof.
  revert polygon result.
  induction node as [|plane polygons front IHf back IHb];
    intros polygon result; simpl.
  - apply preserves_throw.
  - apply keeps_bind; [apply keeps_split | intros sp].
    apply keeps_bind.
    + destruct (sfront _); [|apply keeps_ret].
      destruct front; [apply keeps_ret | apply IHf].
    + intros result'. destruct (sback _); [|apply keeps_ret].
      destruct back; [apply keeps_ret | apply IHb].
Qed.

Lemma keeps_in_place rs (root : option TreeRef) (f : CSGTree -> M CSGTree) :
  (forall r, root = Some r -> In r rs) ->
  (forall t, keeps rs (f t)) ->
  keeps rs (in_place root f).
Proof.
  intros Hroot Hf. unfold in_place. destruct root as [r|].
  - apply keeps_bind; [apply keeps_get_tree | intros t].
    apply keeps_bind; [apply Hf | intros t'].
    apply keeps_set_tree, Hroot. reflexivity.
  - apply keeps_bind; [apply Hf | intros; apply keeps_ret].
Qed.


Lemma clip_node_ok rs (bsp : option TreeRef) :
  visitor_ok (only_trees rs) (clip_node bsp).
Proof.
  intros C view h n h' E. unfold clip_node in E.
  unfold st_bind at 1 in E.
  destruct (fold_of _ _ _ h) as [[clipped h1]|] eqn:E1; [|discriminate E].
  inversion E; subst; simpl. split; [|tauto].
  revert E1. apply keeps_fold_of. intros acc polygon.
  apply keeps_bind; [apply keeps_tree_at | intros; apply keeps_clipPolygon].
Qed.

Lemma add_node_ok rs (tree : option TreeRef) :
  (forall r, tree = Some r -> In r rs) ->
  visitor_ok (only_trees rs) (add_node tree).
Proof.
  intros Hr C view h n h' E. unfold add_node in E.
  unfold st_bind at 1 in E.
  destruct (for_of _ _ h) as [[u h1]|] eqn:E1; [|discriminate E].
  inversion E; subst; simpl. split; [|tauto].
  revert E1. apply keeps_for_of. intros polygon.
  apply keeps_in_place; [exact Hr | intros; apply keeps_addPolygon].
Qed.

Lemma keeps_each rs (fn : Visitor Heap) (t : CSGTree) :
  visitor_ok (only_trees rs) fn -> keeps rs (csg_tree_each t fn).
Proof. apply preserves_each; [apply only_trees_refl | apply only_trees_trans]. Qed.



Lemma keeps_addTree rs (tree source : option TreeRef) :
  (forall r, tree = Some r -> In r rs) -> keeps rs (csg_tree_addTree tree source).
Proof.
  intros Hr. unfold csg_tree_addTree.
  apply keeps_bind; [apply keeps_tree_at | intros st].
  assert (H : keeps rs (do _ <- csg_tree_each st (add_node tree); st_ret tt)).
  { apply keeps_bind; [|intros; apply keeps_ret].
    apply keeps_each, add_node_ok, Hr. }
  destruct (same_node tree source), (tree_polygons st);
    solve [exact H | apply preserves_throw].
Qed.

Lemma st_bind_inv {S A B} (m : St S A) (k : A -> St S B) (s s' : S) (b : B) :
  st_bind m k s = Some (b, s') ->
  exists a s1, m s = Some (a, s1) /\ k a s1 = Some (b, s').
Proof.
  unfold st_bind. destruct (m s) as [[a s1]|]; [|discriminate].
  intros E. exists a, s1. split; [reflexivity | exact E].
Qed.

Lemma only_trees_nil (h h' : Heap) : only_trees [] h h' -> trees h' = trees h.
Proof.
  intros [_ F]. apply list_eq. intros i. apply F. intros [].
Qed.


Section OperationFrames.

Variable normal : list Vec3In -> option Vec3In.

Lemma keeps_build rs (root : CSGTree) (p : Polygon) :
  keeps rs (csg_tree_build normal root p).
Proof.
  unfold csg_tree_build. destruct (normal _); [|apply preserves_throw].
  apply keeps_bind; [apply keeps_new_polygon | intros polygon].
  destruct (head _); [apply keeps_addPolygon | apply preserves_throw].
Qed.





End OperationFrames.



(** ** The spanning split: how many vertices the fragments have *)

Lemma span_loop_lengths (plane : Plane) (pts : list Vec3In) (st : SpanState) :
  s_d st = distance plane (s_iv st) ->
  length (fpoints (fold_left (span_step plane) pts st))
  = (length (fpoints st) + front_pushes plane (s_iv st) pts)%nat
  /\ length (bpoints (fold_left (span_step plane) pts st))
     = (length (bpoints st) + back_pushes plane (s_iv st) pts)%nat.
Proof.
  revert st. induction pts as [|jv rest IH]; intros st Hd; simpl.
  - split; lia.
  - destruct (IH (span_step plane st jv)) as [IHf IHb].
    { unfold span_step. destruct (straddles _ _); reflexivity. }
    rewrite IHf, IHb. clear IH IHf IHb.
    unfold span_step. fold (distance plane jv). rewrite Hd.
    destruct (Qltb (- PLANE_EPSILON) _), (Qltb _ PLANE_EPSILON),
      (straddles _ _); simpl; rewrite ?length_app; simpl; split; lia.
Qed.

Lemma straddles_crossing (d jd : Q) :
  straddles d jd = crossing (side_of d) (side_of jd).
Proof.
  pose proof PLANE_EPSILON_pos as He.
  unfold straddles, crossing, side_of.
  destruct (Qltb PLANE_EPSILON d) eqn:E1, (Qltb d (- PLANE_EPSILON)) eqn:E2,
    (Qltb PLANE_EPSILON jd) eqn:E3, (Qltb jd (- PLANE_EPSILON)) eqn:E4;
    try reflexivity;
    try (apply Qltb_lt in E1); try (apply Qltb_lt in E2);
    try (apply Qltb_lt in E3); try (apply Qltb_lt in E4); lra.
Qed.

Lemma front_push_side (d : Q) :
  ~ d == - PLANE_EPSILON ->
  Qltb (- PLANE_EPSILON) d = negb (is_back (side_of d)).
Proof.
  pose proof PLANE_EPSILON_pos as He. intros Hd. unfold side_of.
  destruct (Qltb (- PLANE_EPSILON) d) eqn:E0,
    (Qltb PLANE_EPSILON d) eqn:E1, (Qltb d (- PLANE_EPSILON)) eqn:E2;
    try reflexivity;
    try (apply Qltb_lt in E0); try (apply Qltb_ge in E0);
    try (apply Qltb_lt in E1); try (apply Qltb_ge in E1);
    try (apply Qltb_lt in E2); try (apply Qltb_ge in E2);
    lra.
Qed.

Lemma back_push_side (d : Q) :
  ~ d == PLANE_EPSILON ->
  Qltb d PLANE_EPSILON = negb (is_front (side_of d)).
Proof.
  pose proof PLANE_EPSILON_pos as He. intros Hd. unfold side_of.
  destruct (Qltb d PLANE_EPSILON) eqn:E0,
    (Qltb PLANE_EPSILON d) eqn:E1, (Qltb d (- PLANE_EPSILON)) eqn:E2;
    try reflexivity;
    try (apply Qltb_lt in E0); try (apply Qltb_ge in E0);
    try (apply Qltb_lt in E1); try (apply Qltb_ge in E1);
    try (apply Qltb_lt in E2); try (apply Qltb_ge in E2);
    lra.
Qed.

Lemma pushes_walk (plane : Plane) (pts : list Vec3In) (iv : Vec3In) :
  off_threshold plane iv ->
  Forall (off_threshold plane) pts ->
  front_pushes plane iv pts
  = walk front_weight (side_of (distance plane iv))
         (map (fun p => side_of (distance plane p)) pts)
  /\ back_pushes plane iv pts
     = walk back_weight (side_of (distance plane iv))
            (map (fun p => side_of (distance plane p)) pts).
Proof.
  intros Hiv Hpts. revert iv Hiv.
  induction Hpts as [|jv rest Hjv _ IH]; intros iv [Hp Hm]; simpl.
  - split; reflexivity.
  - destruct (IH jv Hjv) as [-> ->].
    unfold front_weight, back_weight.
    rewrite straddles_crossing, (front_push_side _ Hm), (back_push_side _ Hp).
    destruct (is_back _), (is_front _); split; reflexivity.
Qed.

Lemma lower_step (wt : Side -> Side -> nat) (cur s e : Side) (sF sB : bool) :
  wt = front_weight \/ wt = back_weight ->
  (lower wt cur e (is_front s || sF) (is_back s || sB)
   <= wt cur s + lower wt s e sF sB)%nat.
Proof.
  intros [-> | ->]; destruct cur, s, e, sF, sB; vm_compute; lia.
Qed.

Lemma lower_stay (wt : Side -> Side -> nat) (c : Side) :
  lower wt c c false false = 0%nat.
Proof. destruct c; reflexivity. Qed.

Lemma lower_cycle (wt : Side -> Side -> nat) (c : Side) :
  wt = front_weight \/ wt = back_weight ->
  lower wt c c true true = 3%nat.
Proof. intros [-> | ->]; destruct c; reflexivity. Qed.

Lemma last_default_cons {A} (a d : A) (l : list A) :
  List.last (a :: l) d = List.last l a.
Proof.
  revert a d. induction l as [|b l IH]; intros a d.
  - reflexivity.
  - change (List.last (a :: b :: l) d) with (List.last (b :: l) d).
    rewrite !IH. reflexivity.
Qed.

Lemma walk_lower (wt : Side -> Side -> nat) (l : list Side) (cur : Side) :
  wt = front_weight \/ wt = back_weight ->
  (lower wt cur (List.last l cur) (existsb is_front l) (existsb is_back l)
   <= walk wt cur l)%nat.
Proof.
  intros Hwt. revert cur. induction l as [|s rest IH]; intros cur.
  - cbn [List.last existsb walk]. rewrite lower_stay. lia.
  - rewrite last_default_cons. cbn [existsb walk].
    pose proof (lower_step wt cur s (List.last rest s)
                  (existsb is_front rest) (existsb is_back rest) Hwt).
    specialize (IH s). lia.
Qed.

Lemma last_default_map {A B} (f : A -> B) (l : list A) (iv : A) (d : B) :
  last l = Some iv -> List.last (map f l) d = f iv.
Proof.
  revert d. induction l as [|a l IH]; intros d E.
  - discriminate E.
  - simpl map. rewrite last_default_cons. destruct l as [|b l].
    + simpl in E. inversion E. reflexivity.
    + apply IH. exact E.
Qed.

Lemma exists_front (plane : Plane) (pts : list Vec3In) :
  Exists (fun p => PLANE_EPSILON < distance plane p) pts ->
  existsb is_front (map (fun p => side_of (distance plane p)) pts) = true.
Proof.
  induction 1 as [q qs Hq | q qs _ IH]; simpl.
  - unfold side_of. apply Qltb_lt in Hq. rewrite Hq. reflexivity.
  - rewrite IH. apply orb_true_r.
Qed.

Lemma exists_back (plane : Plane) (pts : list Vec3In) :
  Exists (fun p => distance plane p < - PLANE_EPSILON) pts ->
  existsb is_back (map (fun p => side_of (distance plane p)) pts) = true.
Proof.
  pose proof PLANE_EPSILON_pos as He.
  induction 1 as [q qs Hq | q qs _ IH]; simpl.
  - unfold side_of.
    destruct (Qltb PLANE_EPSILON _) eqn:E; [apply Qltb_lt in E; lra|].
    apply Qltb_lt in Hq. rewrite Hq. reflexivity.
  - rewrite IH. apply orb_true_r.
Qed.

(** Off the two thresholds, a spanning loop pushes at least three points on
    each list. *)
Lemma spanning_pushes (plane : Plane) (pts : list Vec3In) (iv : Vec3In) :
  last pts = Some iv ->
  spans plane pts ->
  Forall (off_threshold plane) pts ->
  (3 <= front_pushes plane iv pts)%nat /\ (3 <= back_pushes plane iv pts)%nat.
Proof.
  intros Hlast [Hf Hb] Hoff.
  assert (Hiv : off_threshold plane iv).
  { rewrite Forall_forall in Hoff. apply Hoff.
    apply last_Some_elem_of. exact Hlast. }
  destruct (pushes_walk plane pts iv Hiv Hoff) as [-> ->].
  set (sides := map (fun p => side_of (distance plane p)) pts).
  set (c := side_of (distance plane iv)).
  pose proof (walk_lower front_weight sides c (or_introl eq_refl)) as HF.
  pose proof (walk_lower back_weight sides c (or_intror eq_refl)) as HB.
  unfold sides in HF, HB.
  rewrite (last_default_map _ _ iv c Hlast) in HF, HB.
  rewrite (exists_front _ _ Hf), (exists_back _ _ Hb) in HF, HB.
  fold c in HF, HB.
  rewrite lower_cycle in HF by (left; reflexivity).
  rewrite lower_cycle in HB by (right; reflexivity).
  split; assumption.
Qed.

Lemma last_default_some {A} (l : list A) (iv d : A) :
  last l = Some iv -> List.last l d = iv.
Proof.
  intros E. rewrite <- (map_id l). apply (last_default_map (fun a => a)).
  exact E.
Qed.

Lemma vertex_pushes_near (plane : Plane) (v : Vec3In) :
  ((if Qltb (- PLANE_EPSILON) (distance plane v) then 1 else 0)
   + (if Qltb (distance plane v) PLANE_EPSILON then 1 else 0)
   = 1 + (if near plane v then 1 else 0))%nat.
Proof.
  pose proof PLANE_EPSILON_pos as He. unfold near.
  destruct (Qltb (- PLANE_EPSILON) _) eqn:E1, (Qltb _ PLANE_EPSILON) eqn:E2;
    try reflexivity.
  apply Qltb_ge in E1, E2. lra.
Qed.

Lemma pushes_sum (plane : Plane) (pts : list Vec3In) (iv : Vec3In) :
  (front_pushes plane iv pts + back_pushes plane iv pts
   + (1 + (if near plane (List.last pts iv) then 1 else 0))
   = (1 + (if near plane iv then 1 else 0))
     + (length pts + near_count plane pts)
     + 2 * straddle_count plane iv pts)%nat.
Proof.
  revert iv. induction pts as [|jv rest IH]; intros iv.
  - simpl. unfold near_count. simpl. lia.
  - rewrite last_default_cons. specialize (IH jv).
    pose proof (vertex_pushes_near plane iv) as Hv.
    unfold near_count in *. cbn [front_pushes back_pushes straddle_count
                                 length List.filter].
    destruct (near plane jv); cbn [length]; lia.
Qed.

Lemma loop_pushes_sum (plane : Plane) (pts : list Vec3In) (iv : Vec3In) :
  last pts = Some iv ->
  (front_pushes plane iv pts + back_pushes plane iv pts
   = length pts + near_count plane pts + 2 * straddling_edges plane pts)%nat.
Proof.
  intros E. pose proof (pushes_sum plane pts iv) as H.
  rewrite (last_default_some _ _ iv E) in H.
  unfold straddling_edges. rewrite E. lia.
Qed.

Lemma classify_fold (plane : Plane) (pts : list Vec3In) (fb : bool * bool) :
  fold_left (classify_step plane) pts fb
  = (fst fb || existsb (fun p => Qltb PLANE_EPSILON (distance plane p)) pts,
     snd fb || existsb (fun p => Qltb (distance plane p) (- PLANE_EPSILON)) pts).
Proof.
  pose proof PLANE_EPSILON_pos as He.
  revert fb. induction pts as [|q rest IH]; intros [f b]; simpl.
  - rewrite !orb_false_r. reflexivity.
  - rewrite IH. unfold classify_step. fold (distance plane q).
    destruct (Qltb (distance plane q) (- PLANE_EPSILON)) eqn:E1,
      (Qltb PLANE_EPSILON (distance plane q)) eqn:E2; simpl;
      rewrite ?orb_true_r, ?orb_false_r; try reflexivity.
    apply Qltb_lt in E1, E2. lra.
Qed.

Lemma classify_spans (plane : Plane) (pts : list Vec3In) :
  spans plane pts -> classify plane pts = (true, true).
Proof.
  intros [Hf Hb]. unfold classify. rewrite classify_fold. simpl. f_equal.
  - apply existsb_exists. apply Exists_exists in Hf.
    destruct Hf as (q & Hq & Hd). exists q.
    split; [apply list_elem_of_In, Hq | apply Qltb_lt, Hd].
  - apply existsb_exists. apply Exists_exists in Hb.
    destruct Hb as (q & Hq & Hd). exists q.
    split; [apply list_elem_of_In, Hq | apply Qltb_lt, Hd].
Qed.

(** C4, as amended: the spanning split of a polygon that spans the plane
    builds two point lists whose lengths add up to the polygon's vertex count,
    plus one for every vertex strictly within [PLANE_EPSILON] of the plane,
    plus two for every strictly straddling edge; a list becomes a fragment
    (a new polygon whose parent is the polygon split) only if it has at least
    3 points; and when no vertex is at distance exactly [PLANE_EPSILON] or
    [- PLANE_EPSILON], both lists have at least 3 points, so exactly two
    fragments are produced. *)
Theorem spanning_split_vertex_count (h : Heap) (plane : Plane)
    (polygon : PolyRef) (p : CSGPolygon) :
  polys h !! polygon = Some p ->
  spans plane (points p) ->
  exists (fp bp : list Vec3In) (sp : SplitPolygonResult) (h' : Heap),
    CSGPolygon_split plane polygon h = Some (sp, h')
    /\ (forall f : PolyRef, sfront sp = Some f ->
          polys h' !! f = Some (fragment p polygon fp) /\ (3 <= length fp)%nat)
    /\ (forall b : PolyRef, sback sp = Some b ->
          polys h' !! b = Some (fragment p polygon bp) /\ (3 <= length bp)%nat)
    /\ (length fp + length bp
        = length (points p) + near_count plane (points p)
          + 2 * straddling_edges plane (points p))%nat
    /\ (Forall (off_threshold plane) (points p) ->
        sfront sp = Some (length (polys h))
        /\ sback sp = Some (S (length (polys h)))
        /\ (3 <= length fp)%nat /\ (3 <= length bp)%nat).
Proof.
  intros Hp Hs.
  destruct (last (points p)) as [iv|] eqn:El.
  2:{ apply last_None in El. destruct Hs as [Hf _]. rewrite El in Hf.
      inversion Hf. }
  pose (st := span_loop plane (points p) iv).
  destruct (span_loop_lengths plane (points p)
              (mkSpan iv (vec3_dot plane iv - w plane) [] []) eq_refl)
    as [Lf Lb].
  simpl in Lf, Lb. fold (span_loop plane (points p) iv) in Lf, Lb.
  fold st in Lf, Lb.
  pose proof (loop_pushes_sum plane (points p) iv El) as Hsum.
  assert (E : CSGPolygon_split plane polygon h
              = CSGPolygon_splitSpanning plane polygon h).
  { unfold CSGPolygon_split, st_bind, get_polygon.
    rewrite Hp, (classify_spans _ _ Hs). reflexivity. }
  unfold CSGPolygon_splitSpanning, st_bind at 1, get_polygon at 1 in E.
  rewrite Hp, El in E. fold st in E. unfold st_bind, new_polygon, st_ret in E.
  exists (fpoints st), (bpoints st). revert E.
  destruct (2 <? length (fpoints st))%nat eqn:Ef;
    destruct (2 <? length (bpoints st))%nat eqn:Eb;
    intros E; (eexists; eexists; split; [exact E|]); clear E; simpl;
    repeat match goal with
           | H : (_ <? _)%nat = true |- _ => apply Nat.ltb_lt in H
           | H : (_ <? _)%nat = false |- _ => apply Nat.ltb_ge in H
           end.
  - split; [|split; [|split]].
    + intros f Ef'. inversion Ef'; subst f. split; [|lia].
      rewrite lookup_app_l by (rewrite length_app; simpl; lia).
      rewrite list_lookup_middle by reflexivity. reflexivity.
    + intros b Eb'. inversion Eb'; subst b. split; [|lia].
      rewrite list_lookup_middle by reflexivity. reflexivity.
    + lia.
    + intros _. rewrite length_app. simpl.
      rewrite Nat.add_1_r. repeat split; try reflexivity; lia.
  - split; [|split; [|split]].
    + intros f Ef'. inversion Ef'; subst f. split; [|lia].
      rewrite list_lookup_middle by reflexivity. reflexivity.
    + intros b Eb'. discriminate Eb'.
    + lia.
    + intros Hoff.
      destruct (spanning_pushes plane (points p) iv El Hs Hoff). lia.
  - split; [|split; [|split]].
    + intros f Ef'. discriminate Ef'.
    + intros b Eb'. inversion Eb'; subst b. split; [|lia].
      rewrite list_lookup_middle by reflexivity. reflexivity.
    + lia.
    + intros Hoff.
      destruct (spanning_pushes plane (points p) iv El Hs Hoff). lia.
  - split; [|split; [|split]].
    + intros f Ef'. discriminate Ef'.
    + intros b Eb'. discriminate Eb'.
    + lia.
    + intros Hoff.
      destruct (spanning_pushes plane (points p) iv El Hs Hoff). lia.
Qed.

Lemma triangle_spans : spans plane_x0 triangle.
Proof.
  split.
  - apply Exists_cons_hd. reflexivity.
  - apply Exists_cons_tl, Exists_cons_tl, Exists_cons_hd. reflexivity.
Qed.

Lemma spanning_split_vertex_count_witness :
  exists (fp bp : list Vec3In) (sp : SplitPolygonResult) (h' : Heap),
    CSGPolygon_split plane_x0 0 heap_triangle = Some (sp, h')
    /\ sfront sp = Some 1%nat /\ sback sp = Some 2%nat
    /\ (3 <= length fp)%nat /\ (3 <= length bp)%nat
    /\ (length fp + length bp = 3 + 0 + 2 * 2)%nat.
Proof.
  destruct (spanning_split_vertex_count heap_triangle plane_x0 0 _
              eq_refl triangle_spans)
    as (fp & bp & sp & h' & E & _ & _ & Hsum & Hoff).
  destruct Hoff as (Hf & Hb & H3f & H3b).
  { repeat constructor; vm_compute; discriminate. }
  exists fp, bp, sp, h'. repeat split; assumption.
Defined.

(** C4 as stated fails: the fragments of a triangle with two vertices in
    front of the plane and one behind have 4 and 3 vertices, 7 in all, which
    is the triangle's 3 plus 4, not plus 2. *)
Lemma spanning_split_triangle_seven_vertices :
  spans plane_x0 triangle
  /\ exists (h' : Heap) (fp bp : CSGPolygon),
       CSGPolygon_split plane_x0 0 heap_triangle
       = Some (mkSplit (Some 1%nat) (Some 2%nat), h')
       /\ polys h' !! 1%nat = Some fp
       /\ polys h' !! 2%nat = Some bp
       /\ (length (points fp) + length (points bp) = 7)%nat
       /\ (length (points fp) + length (points bp) <> length triangle + 2)%nat.
Proof.
  split; [exact triangle_spans|].
  eexists. eexists. eexists.
  split; [vm_compute; reflexivity|].
  split; [reflexivity|]. split; [reflexivity|].
  split; [reflexivity|]. simpl. lia.
Qed.

(** * Further properties of the engine *)

(** ** The splitter *)

Lemma existsb_reaches_front (plane : Plane) (pts : list Vec3In) :
  existsb (fun p => Qltb PLANE_EPSILON (distance plane p)) pts = true
  <-> reaches_front plane pts.
Proof.
  unfold reaches_front. rewrite existsb_exists, Exists_exists. split.
  - intros (q & Hq & Hd). exists q.
    split; [apply list_elem_of_In, Hq | apply Qltb_lt, Hd].
  - intros (q & Hq & Hd). exists q.
    split; [apply list_elem_of_In, Hq | apply Qltb_lt, Hd].
Qed.

Lemma existsb_reaches_back (plane : Plane) (pts : list Vec3In) :
  existsb (fun p => Qltb (distance plane p) (- PLANE_EPSILON)) pts = true
  <-> reaches_back plane pts.
Proof.
  unfold reaches_back. rewrite existsb_exists, Exists_exists. split.
  - intros (q & Hq & Hd). exists q.
    split; [apply list_elem_of_In, Hq | apply Qltb_lt, Hd].
  - intros (q & Hq & Hd). exists q.
    split; [apply list_elem_of_In, Hq | apply Qltb_lt, Hd].
Qed.

Lemma classify_reaches (plane : Plane) (pts : list Vec3In) :
  (fst (classify plane pts) = true <-> reaches_front plane pts)
  /\ (snd (classify plane pts) = true <-> reaches_back plane pts).
Proof.
  unfold classify. rewrite classify_fold. simpl.
  split; [apply existsb_reaches_front | apply existsb_reaches_back].
Qed.

(** X1: a polygon that does not reach both sides of the plane is not split:
    the split allocates nothing and returns the polygon itself, as the front
    fragment exactly when it reaches in front of the plane and as the back
    fragment exactly when it reaches behind it. *)
Theorem split_keeps_one_sided_polygon (h : Heap) (plane : Plane)
    (polygon : PolyRef) (p : CSGPolygon) :
  polys h !! polygon = Some p ->
  ~ (reaches_front plane (points p) /\ reaches_back plane (points p)) ->
  exists sp : SplitPolygonResult,
    CSGPolygon_split plane polygon h = Some (sp, h)
    /\ (reaches_front plane (points p) -> sfront sp = Some polygon)
    /\ (~ reaches_front plane (points p) -> sfront sp = None)
    /\ (reaches_back plane (points p) -> sback sp = Some polygon)
    /\ (~ reaches_back plane (points p) -> sback sp = None).
Proof.
  intros Hp Hns.
  destruct (classify_reaches plane (points p)) as [Hf Hb].
  unfold CSGPolygon_split, st_bind, get_polygon. rewrite Hp.
  destruct (fst (classify plane (points p))) eqn:Ef,
    (snd (classify plane (points p))) eqn:Eb; simpl.
  - exfalso. apply Hns. split; [apply Hf | apply Hb]; reflexivity.
  - eexists. split; [reflexivity|]. simpl.
    repeat split; intros H; try reflexivity.
    + exfalso. apply H, Hf. reflexivity.
    + apply Hb in H. discriminate H.
  - eexists. split; [reflexivity|]. simpl.
    repeat split; intros H; try reflexivity.
    + apply Hf in H. discriminate H.
    + exfalso. apply H, Hb. reflexivity.
  - eexists. split; [reflexivity|]. simpl.
    repeat split; intros H; try reflexivity.
    + apply Hf in H. discriminate H.
    + apply Hb in H. discriminate H.
Qed.

Lemma split_keeps_one_sided_polygon_witness :
  exists sp : SplitPolygonResult,
    CSGPolygon_split plane_x0 0 heap_quad_x2 = Some (sp, heap_quad_x2)
    /\ sfront sp = Some 0%nat /\ sback sp = None.
Proof.
  destruct (split_keeps_one_sided_polygon heap_quad_x2 plane_x0 0 quad_x2 eq_refl)
    as (sp & E & Hf & _ & _ & Hb).
  - intros [_ Hback]. unfold reaches_back in Hback.
    repeat (apply Exists_cons in Hback; destruct Hback as [Hback|Hback];
            [vm_compute in Hback; discriminate Hback|]).
    inversion Hback.
  - exists sp. split; [exact E|]. split.
    + apply Hf. apply Exists_cons_hd. reflexivity.
    + apply Hb. intros Hback. unfold reaches_back in Hback.
      repeat (apply Exists_cons in Hback; destruct Hback as [Hback|Hback];
              [vm_compute in Hback; discriminate Hback|]).
      inversion Hback.
Defined.

Lemma straddling_denominator (plane : Plane) (iv jv : Vec3In) :
  straddles (distance plane iv) (distance plane jv) = true ->
  ~ split_denominator plane iv jv == 0.
Proof.
  intros Hs Hz. rewrite split_denominator_distance in Hz.
  apply straddles_spec in Hs. pose proof PLANE_EPSILON_pos.
  destruct Hs as [[? ?]|[? ?]]; lra.
Qed.

Lemma intersection_distance (plane : Plane) (iv jv : Vec3In) :
  straddles (distance plane iv) (distance plane jv) = true ->
  distance plane (intersection plane iv jv (distance plane iv)) == 0.
Proof.
  intros Hs. pose proof (straddling_denominator _ _ _ Hs) as Hden.
  unfold distance, intersection, vec3_dot, split_denominator in *. simpl.
  field. exact Hden.
Qed.

(** X2: on a straddling edge the point the split inserts lies on the plane
    (its signed distance is 0) and strictly between the two ends of the edge
    (its parameter [t] is strictly between 0 and 1). *)
Theorem intersection_on_plane_within_edge (plane : Plane) (iv jv : Vec3In) :
  straddles (distance plane iv) (distance plane jv) = true ->
  intersection plane iv jv (distance plane iv)
  = mkVec3 ((x jv - x iv) * intersection_t plane iv jv + x iv)
           ((y jv - y iv) * intersection_t plane iv jv + y iv)
           ((z jv - z iv) * intersection_t plane iv jv + z iv)
  /\ 0 < intersection_t plane iv jv
  /\ intersection_t plane iv jv < 1
  /\ distance plane (intersection plane iv jv (distance plane iv)) == 0.
Proof.
  intros Hs. pose proof (straddling_denominator _ _ _ Hs) as Hden.
  pose proof (split_denominator_distance plane iv jv) as HD.
  pose proof PLANE_EPSILON_pos as He.
  split; [reflexivity|].
  apply straddles_spec in Hs. unfold intersection_t.
  split; [|split].
  - destruct Hs as [[H1 H2]|[H1 H2]].
    + apply Qlt_shift_div_l; lra.
    + assert (E : - distance plane iv / split_denominator plane iv jv
                  == distance plane iv / - split_denominator plane iv jv).
      { field. exact Hden. }
      rewrite E. apply Qlt_shift_div_l; lra.
  - destruct Hs as [[H1 H2]|[H1 H2]].
    + apply Qlt_shift_div_r; lra.
    + assert (E : - distance plane iv / split_denominator plane iv jv
                  == distance plane iv / - split_denominator plane iv jv).
      { field. exact Hden. }
      rewrite E. apply Qlt_shift_div_r; lra.
  - apply intersection_distance. apply straddles_spec. exact Hs.
Qed.

Lemma intersection_on_plane_within_edge_witness :
  0 < intersection_t plane_x0 (V (- (1)) 0 0) (V 3 0 0)
  /\ intersection_t plane_x0 (V (- (1)) 0 0) (V 3 0 0) < 1
  /\ distance plane_x0
       (intersection plane_x0 (V (- (1)) 0 0) (V 3 0 0)
                     (distance plane_x0 (V (- (1)) 0 0))) == 0.
Proof.
  destruct (intersection_on_plane_within_edge plane_x0 (V (- (1)) 0 0) (V 3 0 0))
    as (_ & H0 & H1 & Hd).
  - vm_compute. reflexivity.
  - repeat split; assumption.
Defined.

(** What the spanning split returns: the polygons it allocates are appended
    to the store, and each is the fragment made of one of the two lists. *)
Lemma splitSpanning_result (h : Heap) (plane : Plane) (polygon : PolyRef)
    (p : CSGPolygon) (iv : Vec3In) :
  polys h !! polygon = Some p ->
  last (points p) = Some iv ->
  exists (sp : SplitPolygonResult) (extra : list CSGPolygon),
    CSGPolygon_splitSpanning plane polygon h
    = Some (sp, mkHeap (polys h ++ extra) (trees h))
    /\ Forall (fun q => parent q = Some polygon) extra
    /\ (forall f : PolyRef, sfront sp = Some f ->
          (polys h ++ extra) !! f
          = Some (fragment p polygon (fpoints (span_loop plane (points p) iv))))
    /\ (forall b : PolyRef, sback sp = Some b ->
          (polys h ++ extra) !! b
          = Some (fragment p polygon (bpoints (span_loop plane (points p) iv)))).
Proof.
  intros Hp El.
  unfold CSGPolygon_splitSpanning, st_bind at 1, get_polygon at 1.
  rewrite Hp, El. unfold st_bind, new_polygon, st_ret. simpl.
  set (st := span_loop plane (points p) iv).
  destruct (2 <? length (fpoints st))%nat, (2 <? length (bpoints st))%nat;
    cbn [polys trees].
  - exists (mkSplit (Some (length (polys h)))
                    (Some (length (polys h ++ [fragment p polygon (fpoints st)])))),
      [fragment p polygon (fpoints st); fragment p polygon (bpoints st)].
    split; [unfold fragment; rewrite <- app_assoc; reflexivity|].
    split; [repeat constructor|]. split.
    + intros f E. inversion E; subst f.
      rewrite list_lookup_middle by reflexivity. reflexivity.
    + intros b E. inversion E; subst b.
      rewrite lookup_app_r by (rewrite length_app; lia).
      rewrite length_app. simpl.
      replace (length (polys h) + 1 - length (polys h))%nat with 1%nat by lia.
      reflexivity.
  - exists (mkSplit (Some (length (polys h))) None),
      [fragment p polygon (fpoints st)].
    split; [reflexivity|]. split; [repeat constructor|]. split.
    + intros f E. inversion E; subst f.
      rewrite list_lookup_middle by (rewrite ?app_nil_r; reflexivity).
      reflexivity.
    + intros b E. discriminate E.
  - exists (mkSplit None (Some (length (polys h)))),
      [fragment p polygon (bpoints st)].
    split; [reflexivity|]. split; [repeat constructor|]. split.
    + intros f E. discriminate E.
    + intros b E. inversion E; subst b.
      rewrite list_lookup_middle by (rewrite ?app_nil_r; reflexivity).
      reflexivity.
  - exists (mkSplit None None), [].
    split; [rewrite app_nil_r; destruct h; reflexivity|].
    split; [constructor|]. split; intros ? E; discriminate E.
Qed.

Lemma span_loop_sides (plane : Plane) (pts : list Vec3In) (st : SpanState) :
  s_d st = distance plane (s_iv st) ->
  Forall (fun v => - PLANE_EPSILON < distance plane v) (fpoints st) ->
  Forall (fun v => distance plane v < PLANE_EPSILON) (bpoints st) ->
  Forall (fun v => - PLANE_EPSILON < distance plane v)
         (fpoints (fold_left (span_step plane) pts st))
  /\ Forall (fun v => distance plane v < PLANE_EPSILON)
            (bpoints (fold_left (span_step plane) pts st)).
Proof.
  pose proof PLANE_EPSILON_pos as He.
  revert st. induction pts as [|jv rest IH]; intros st Hd Hf Hb; simpl.
  - split; assumption.
  - apply IH; clear IH.
    + unfold span_step. destruct (straddles _ _); reflexivity.
    + unfold span_step. fold (distance plane jv). rewrite Hd.
      destruct (straddles _ _) eqn:Es; simpl;
        destruct (Qltb (- PLANE_EPSILON) _) eqn:E1; simpl;
        rewrite ?Forall_app; repeat split; try assumption;
        repeat constructor;
        try (apply Qltb_lt in E1; exact E1).
      all: rewrite (intersection_distance _ _ _ Es); lra.
    + unfold span_step. fold (distance plane jv). rewrite Hd.
      destruct (straddles _ _) eqn:Es; simpl;
        destruct (Qltb _ PLANE_EPSILON) eqn:E1; simpl;
        rewrite ?Forall_app; repeat split; try assumption;
        repeat constructor;
        try (apply Qltb_lt in E1; exact E1).
      all: rewrite (intersection_distance _ _ _ Es); lra.
Qed.

Lemma classify_no_back (plane : Plane) (pts : list Vec3In) :
  snd (classify plane pts) = false ->
  Forall (fun v => - PLANE_EPSILON <= distance plane v) pts.
Proof.
  unfold classify. rewrite classify_fold. simpl.
  induction pts as [|q rest IH]; simpl; intros E; constructor.
  - apply orb_false_iff in E. apply Qltb_ge. apply E.
  - apply IH. apply orb_false_iff in E. apply E.
Qed.

Lemma classify_no_front (plane : Plane) (pts : list Vec3In) :
  fst (classify plane pts) = false ->
  Forall (fun v => distance plane v <= PLANE_EPSILON) pts.
Proof.
  unfold classify. rewrite classify_fold. simpl.
  induction pts as [|q rest IH]; simpl; intros E; constructor.
  - apply orb_false_iff in E. apply Qltb_ge. apply E.
  - apply IH. apply orb_false_iff in E. apply E.
Qed.

(** X3: in exact arithmetic (numbers as rationals, rounding aside),
    whatever the split returns as the front fragment has no vertex farther
    than [PLANE_EPSILON] behind the plane, and whatever it returns as the
    back fragment has no vertex farther than [PLANE_EPSILON] in front of it.
    In binary64 the vertex computed on a straddling edge can be rounded off
    the plane by more than that ([intersection_rounds_binary64]). *)
Theorem split_fragment_sides (h h' : Heap) (plane : Plane) (polygon : PolyRef)
    (sp : SplitPolygonResult) :
  CSGPolygon_split plane polygon h = Some (sp, h') ->
  (forall (f : PolyRef) (q : CSGPolygon),
      sfront sp = Some f -> polys h' !! f = Some q ->
      Forall (fun v => - PLANE_EPSILON <= distance plane v) (points q))
  /\ (forall (b : PolyRef) (q : CSGPolygon),
        sback sp = Some b -> polys h' !! b = Some q ->
        Forall (fun v => distance plane v <= PLANE_EPSILON) (points q)).
Proof.
  unfold CSGPolygon_split, st_bind at 1, get_polygon at 1.
  destruct (polys h !! polygon) as [p|] eqn:Hp; [|discriminate].
  destruct (fst (classify plane (points p))) eqn:Ef,
    (snd (classify plane (points p))) eqn:Eb; simpl; intros E.
  - destruct (last (points p)) as [iv|] eqn:El.
    2:{ apply last_None in El. rewrite El in Ef. discriminate Ef. }
    destruct (splitSpanning_result h plane polygon p iv Hp El)
      as (sp' & extra & E' & _ & Hf & Hb).
    rewrite E' in E. inversion E; subst sp h'. clear E. simpl.
    destruct (span_loop_sides plane (points p)
                (mkSpan iv (vec3_dot plane iv - w plane) [] []) eq_refl
                (List.Forall_nil _) (List.Forall_nil _)) as [Sf Sb].
    fold (span_loop plane (points p) iv) in Sf, Sb.
    split.
    + intros f q Hsf Hq. rewrite (Hf f Hsf) in Hq. inversion Hq; subst q.
      simpl. eapply Forall_impl; [exact Sf|]. intros v Hv. simpl in Hv. lra.
    + intros b q Hsb Hq. rewrite (Hb b Hsb) in Hq. inversion Hq; subst q.
      simpl. eapply Forall_impl; [exact Sb|]. intros v Hv. simpl in Hv. lra.
  - inversion E; subst sp h'. simpl. split.
    + intros f q Hsf Hq. inversion Hsf; subst f.
      rewrite Hp in Hq. inversion Hq; subst q.
      apply classify_no_back, Eb.
    + intros b q Hsb. discriminate Hsb.
  - inversion E; subst sp h'. simpl. split.
    + intros f q Hsf. discriminate Hsf.
    + intros b q Hsb Hq. inversion Hsb; subst b.
      rewrite Hp in Hq. inversion Hq; subst q.
      apply classify_no_front, Ef.
  - inversion E; subst sp h'. simpl. split; intros ? q Hs; discriminate Hs.
Qed.

Lemma split_fragment_sides_witness :
  match CSGPolygon_split plane_x0 0 heap_triangle with
  | Some (sp, h') =>
      forall (f : PolyRef) (q : CSGPolygon),
        sfront sp = Some f -> polys h' !! f = Some q ->
        Forall (fun v => - PLANE_EPSILON <= distance plane_x0 v) (points q)
  | None => False
  end.
Proof.
  destruct (CSGPolygon_split plane_x0 0 heap_triangle) as [[sp h']|] eqn:E.
  - exact (proj1 (split_fragment_sides _ _ _ _ _ E)).
  - vm_compute in E. discriminate E.
Defined.

(** ** Flipped planes *)

Lemma distance_negated (plane : Plane) (p : Vec3In) :
  distance (negated plane) p == - distance plane p.
Proof. unfold distance, negated, vec3_dot. simpl. ring. Qed.

Lemma Qltb_negated_back (plane : Plane) (p : Vec3In) :
  Qltb (distance (negated plane) p) (- PLANE_EPSILON)
  = Qltb PLANE_EPSILON (distance plane p).
Proof.
  pose proof (distance_negated plane p) as E.
  destruct (Qltb PLANE_EPSILON (distance plane p)) eqn:E1.
  - apply Qltb_lt in E1. apply Qltb_lt. lra.
  - apply Qltb_ge in E1. apply Qltb_ge. lra.
Qed.

Lemma Qltb_negated_front (plane : Plane) (p : Vec3In) :
  Qltb PLANE_EPSILON (distance (negated plane) p)
  = Qltb (distance plane p) (- PLANE_EPSILON).
Proof.
  pose proof (distance_negated plane p) as E.
  destruct (Qltb (distance plane p) (- PLANE_EPSILON)) eqn:E1.
  - apply Qltb_lt in E1. apply Qltb_lt. lra.
  - apply Qltb_ge in E1. apply Qltb_ge. lra.
Qed.

Lemma classify_negated (plane : Plane) (pts : list Vec3In) :
  classify (negated plane) pts
  = (snd (classify plane pts), fst (classify plane pts)).
Proof.
  unfold classify. rewrite !classify_fold. simpl. f_equal.
  - induction pts as [|q rest IH]; simpl; [reflexivity|].
    rewrite IH, Qltb_negated_front. reflexivity.
  - induction pts as [|q rest IH]; simpl; [reflexivity|].
    rewrite IH, Qltb_negated_back. reflexivity.
Qed.

(** X4: negating a plane, as a flip does, swaps the two sides: a polygon that
    the split by a plane returns unsplit as front fragment is returned as
    back fragment by the split by the negated plane, and the other way round;
    a polygon on the plane stays on it. *)
Theorem split_by_negated_plane (h : Heap) (plane : Plane) (polygon : PolyRef)
    (p : CSGPolygon) :
  polys h !! polygon = Some p ->
  ~ (reaches_front plane (points p) /\ reaches_back plane (points p)) ->
  exists sp : SplitPolygonResult,
    CSGPolygon_split plane polygon h = Some (sp, h)
    /\ CSGPolygon_split (negated plane) polygon h
       = Some (mkSplit (sback sp) (sfront sp), h).
Proof.
  intros Hp Hns.
  destruct (classify_reaches plane (points p)) as [Hf Hb].
  unfold CSGPolygon_split, st_bind, get_polygon. rewrite Hp, classify_negated.
  destruct (fst (classify plane (points p))) eqn:Ef,
    (snd (classify plane (points p))) eqn:Eb; simpl.
  - exfalso. apply Hns. split; [apply Hf | apply Hb]; reflexivity.
  - eexists. split; reflexivity.
  - eexists. split; reflexivity.
  - eexists. split; reflexivity.
Qed.

Lemma split_by_negated_plane_witness :
  CSGPolygon_split (negated plane_x0) 0 heap_quad_x2
  = Some (mkSplit None (Some 0%nat), heap_quad_x2).
Proof.
  destruct (split_by_negated_plane heap_quad_x2 plane_x0 0 quad_x2 eq_refl)
    as (sp & E & E').
  - intros [_ Hback]. unfold reaches_back in Hback.
    repeat (apply Exists_cons in Hback; destruct Hback as [Hback|Hback];
            [vm_compute in Hback; discriminate Hback|]).
    inversion Hback.
  - vm_compute in E. inversion E; subst sp. exact E'.
Defined.

(** ** Invariants of the operations *)

Section Invariants.

Variable R : Heap -> Heap -> Prop.
Hypothesis R_refl : forall h, R h h.
Hypothesis R_trans : forall h1 h2 h3, R h1 h2 -> R h2 h3 -> R h1 h3.
Hypothesis R_spanning : forall plane polygon,
  preserves R (CSGPolygon_splitSpanning plane polygon).
Hypothesis R_root : forall p, parent p = None -> preserves R (new_polygon p).
Hypothesis R_set_tree : forall r t, preserves R (set_tree r t).
Hypothesis R_new_tree : forall t, preserves R (new_tree t).
Hypothesis R_set_flipped : forall r v, preserves R (set_flipped r v).

Lemma inv_get_polygon (r : PolyRef) : preserves R (get_polygon r).
Proof.
  intros h a h' E. unfold get_polygon in E.
  destruct (polys h !! r); inversion E; subst. apply R_refl.
Qed.

Lemma inv_tree_at (r : option TreeRef) : preserves R (tree_at r).
Proof.
  destruct r as [r|]; [|apply preserves_ret, R_refl].
  intros h a h' E. simpl in E. unfold get_tree in E.
  destruct (trees h !! r); inversion E; subst. apply R_refl.
Qed.

Lemma inv_split (plane : Plane) (polygon : PolyRef) :
  preserves R (CSGPolygon_split plane polygon).
Proof.
  unfold CSGPolygon_split.
  apply preserves_bind; [exact R_trans | apply inv_get_polygon | intros p].
  destruct (_ && _); [apply R_spanning | apply preserves_ret, R_refl].
Qed.

Lemma inv_addPolygon (node : CSGTree) (polygon : PolyRef)
    (polygonNormal : Vec3In) (planeW : Q) :
  preserves R (csg_tree_addPolygon node polygon polygonNormal planeW).
Proof.
  revert polygon.
  induction node as [|plane polygons front IHf back IHb]; intros polygon; simpl.
  - apply preserves_ret, R_refl.
  - apply preserves_bind; [exact R_trans | apply inv_split | intros sp].
    apply preserves_bind; [exact R_trans | |intros f'].
    { destruct (sfront sp); [apply IHf | apply preserves_ret, R_refl]. }
    apply preserves_bind; [exact R_trans | |intros b'].
    { destruct (sback sp); [apply IHb | apply preserves_ret, R_refl]. }
    apply preserves_ret, R_refl.
Qed.

Lemma inv_clipPolygon (node : CSGTree) (polygon : PolyRef)
    (polygonPlane : Plane) (result : list PolyRef) :
  preserves R (csg_tree_clipPolygon node polygon polygonPlane result).
Proof.
  revert polygon result.
  induction node as [|plane polygons front IHf back IHb];
    intros polygon result; simpl.
  - apply preserves_throw.
  - apply preserves_bind; [exact R_trans | apply inv_split | intros sp].
    apply preserves_bind; [exact R_trans | |intros result'].
    + destruct (sfront _); [|apply preserves_ret, R_refl].
      destruct front; [apply preserves_ret, R_refl | apply IHf].
    + destruct (sback _); [|apply preserves_ret, R_refl].
      destruct back; [apply preserves_ret, R_refl | apply IHb].
Qed.

Lemma inv_in_place (root : option TreeRef) (f : CSGTree -> M CSGTree) :
  (forall t, preserves R (f t)) -> preserves R (in_place root f).
Proof.
  intros Hf. unfold in_place. destruct root as [r|].
  - apply preserves_bind; [exact R_trans | apply (inv_tree_at (Some r)) |].
    intros t. apply preserves_bind; [exact R_trans | apply Hf |].
    intros t'. apply R_set_tree.
  - apply preserves_bind; [exact R_trans | apply Hf |].
    intros t. apply preserves_ret, R_refl.
Qed.

Lemma inv_clip_node (bsp : option TreeRef) : visitor_ok R (clip_node bsp).
Proof.
  intros C view h n h' E. unfold clip_node in E.
  unfold st_bind at 1 in E.
  destruct (fold_of _ _ _ h) as [[clipped h1]|] eqn:E1; [|discriminate E].
  inversion E; subst; simpl. split; [|tauto].
  revert E1. apply preserves_fold_of; [exact R_refl | exact R_trans |].
  intros acc polygon.
  apply preserves_bind; [exact R_trans | apply inv_tree_at |].
  intros b. apply inv_clipPolygon.
Qed.

Lemma inv_add_node (tree : option TreeRef) : visitor_ok R (add_node tree).
Proof.
  intros C view h n h' E. unfold add_node in E.
  unfold st_bind at 1 in E.
  destruct (for_of _ _ h) as [[u h1]|] eqn:E1; [|discriminate E].
  inversion E; subst; simpl. split; [|tauto].
  revert E1. apply preserves_for_of; [exact R_refl | exact R_trans |].
  intros polygon. apply inv_in_place. intros t. apply inv_addPolygon.
Qed.

Lemma inv_flip_node : visitor_ok R flip_node.
Proof.
  intros C view h n h' E. unfold flip_node in E.
  unfold st_bind at 1 in E.
  destruct (for_of _ _ h) as [[u h1]|] eqn:E1; [|discriminate E].
  inversion E; subst; simpl. split; [|tauto].
  revert E1. apply preserves_for_of; [exact R_refl | exact R_trans |].
  intros polygon.
  apply preserves_bind; [exact R_trans | apply inv_get_polygon |].
  intros p. apply R_set_flipped.
Qed.

Lemma inv_clipTo (root bsp : option TreeRef) :
  preserves R (csg_tree_clipTo root bsp).
Proof.
  apply inv_in_place. intros t.
  apply preserves_each; [exact R_refl | exact R_trans | apply inv_clip_node].
Qed.

Lemma inv_flip (root : option TreeRef) : preserves R (csg_tree_flip root).
Proof.
  apply inv_in_place. intros t.
  apply preserves_each; [exact R_refl | exact R_trans | apply inv_flip_node].
Qed.

Lemma inv_addTree (tree source : option TreeRef) :
  preserves R (csg_tree_addTree tree source).
Proof.
  unfold csg_tree_addTree.
  apply preserves_bind; [exact R_trans | apply inv_tree_at | intros st].
  assert (H : preserves R (do _ <- csg_tree_each st (add_node tree); st_ret tt)).
  { apply preserves_bind; [exact R_trans | |intros; apply preserves_ret, R_refl].
    apply preserves_each; [exact R_refl | exact R_trans | apply inv_add_node]. }
  destruct (same_node tree source), (tree_polygons st);
    solve [exact H | apply preserves_throw].
Qed.

Variable normal : list Vec3In -> option Vec3In.

Lemma inv_build (root : CSGTree) (p : Polygon) :
  preserves R (csg_tree_build normal root p).
Proof.
  unfold csg_tree_build. destruct (normal _); [|apply preserves_throw].
  apply preserves_bind; [exact R_trans | apply R_root; reflexivity |].
  intros polygon.
  destruct (head _); [apply inv_addPolygon | apply preserves_throw].
Qed.

Lemma inv_csg_tree (n : Val) : preserves R (csg_tree normal n).
Proof.
  destruct n as [[r|ps]|]; simpl; try (apply preserves_ret, R_refl).
  apply preserves_bind; [exact R_trans | |intros root].
  - apply preserves_fold_of; [exact R_refl | exact R_trans |].
    intros b a. apply inv_build.
  - destruct root; [apply preserves_ret, R_refl|].
    apply preserves_bind; [exact R_trans | apply R_new_tree |].
    intros r. apply preserves_ret, R_refl.
Qed.

Lemma inv_union_op (a b : Val) : preserves R (csg_union_op normal a b).
Proof.
  unfold csg_union_op.
  apply preserves_bind; [exact R_trans | apply inv_csg_tree | intros a'].
  destruct b as [b|]; [|apply preserves_ret, R_refl].
  apply preserves_bind; [exact R_trans | apply inv_csg_tree | intros b'].
  repeat (apply preserves_bind; [exact R_trans | |intros _]);
    auto using inv_clipTo, inv_flip, inv_addTree.
  apply preserves_ret, R_refl.
Qed.

Lemma inv_subtract (a b : Val) : preserves R (csg_subtract normal a b).
Proof.
  unfold csg_subtract.
  apply preserves_bind; [exact R_trans | apply inv_csg_tree | intros a'].
  repeat (apply preserves_bind; [exact R_trans | |intros _]);
    auto using inv_flip, inv_union_op.
  apply preserves_ret, R_refl.
Qed.

Lemma inv_intersect (a b : Val) : preserves R (csg_intersect normal a b).
Proof.
  unfold csg_intersect.
  apply preserves_bind; [exact R_trans | apply inv_csg_tree | intros a'].
  apply preserves_bind; [exact R_trans | apply inv_flip | intros _].
  apply preserves_bind; [exact R_trans | apply inv_csg_tree | intros b'].
  repeat (apply preserves_bind; [exact R_trans | |intros _]);
    auto using inv_clipTo, inv_flip, inv_addTree.
  apply preserves_ret, R_refl.
Qed.

Lemma inv_union (inputs : list CSGInput) : preserves R (csg_union normal inputs).
Proof.
  unfold csg_union. destruct inputs as [|i0 rest]; [apply preserves_throw|].
  apply preserves_fold_of; [exact R_refl | exact R_trans |].
  intros acc cur.
  apply preserves_bind; [exact R_trans | apply inv_union_op | intros r].
  apply preserves_ret, R_refl.
Qed.

End Invariants.

Lemma store_grows_refl (h : Heap) : store_grows h h.
Proof. exists []. rewrite app_nil_r. reflexivity. Qed.

Lemma store_grows_trans (h1 h2 h3 : Heap) :
  store_grows h1 h2 -> store_grows h2 h3 -> store_grows h1 h3.
Proof.
  intros [e1 E1] [e2 E2]. exists (e1 ++ e2).
  rewrite E2, E1, app_assoc. reflexivity.
Qed.

Lemma spanning_store (h h' : Heap) (plane : Plane) (polygon : PolyRef)
    (sp : SplitPolygonResult) :
  CSGPolygon_splitSpanning plane polygon h = Some (sp, h') ->
  (polygon < length (polys h))%nat
  /\ exists extra : list CSGPolygon,
       polys h' = polys h ++ extra
       /\ Forall (fun q => parent q = Some polygon) extra.
Proof.
  intros E.
  destruct (polys h !! polygon) as [p|] eqn:Hp.
  - destruct (last (points p)) as [iv|] eqn:El.
    + destruct (splitSpanning_result h plane polygon p iv Hp El)
        as (sp' & extra & E' & Hpar & _).
      rewrite E' in E. inversion E; subst. simpl.
      split; [eapply lookup_lt_Some; exact Hp | eauto].
    + unfold CSGPolygon_splitSpanning, st_bind, get_polygon in E.
      rewrite Hp, El in E. discriminate E.
  - unfold CSGPolygon_splitSpanning, st_bind, get_polygon in E.
    rewrite Hp in E. discriminate E.
Qed.

Lemma store_grows_spanning (plane : Plane) (polygon : PolyRef) :
  preserves store_grows (CSGPolygon_splitSpanning plane polygon).
Proof.
  intros h sp h' E. apply spanning_store in E.
  destruct E as (_ & extra & E & _). exists extra. exact E.
Qed.

Lemma store_grows_new_polygon (p : CSGPolygon) :
  preserves store_grows (new_polygon p).
Proof. intros h a h' E. inversion E; subst. exists [p]. reflexivity. Qed.

Lemma store_grows_set_tree (r : TreeRef) (t : CSGTree) :
  preserves store_grows (set_tree r t).
Proof.
  intros h a h' E. unfold set_tree in E.
  destruct (trees h !! r); inversion E; subst.
  exists []. simpl. rewrite app_nil_r. reflexivity.
Qed.

Lemma store_grows_new_tree (t : CSGTree) : preserves store_grows (new_tree t).
Proof.
  intros h a h' E. inversion E; subst.
  exists []. simpl. rewrite app_nil_r. reflexivity.
Qed.

Lemma polygons_kept_refl (h : Heap) : polygons_kept h h.
Proof. intros i p Hp. exists p. auto. Qed.

Lemma polygons_kept_trans (h1 h2 h3 : Heap) :
  polygons_kept h1 h2 -> polygons_kept h2 h3 -> polygons_kept h1 h3.
Proof.
  intros H1 H2 i p Hp.
  destruct (H1 i p Hp) as (p' & Hp' & E1 & E2).
  destruct (H2 i p' Hp') as (p'' & Hp'' & E3 & E4).
  exists p''. split; [exact Hp''|]. split; congruence.
Qed.

Lemma store_grows_kept (h h' : Heap) : store_grows h h' -> polygons_kept h h'.
Proof.
  intros [extra E] i p Hp. exists p. rewrite E.
  split; [|auto]. rewrite lookup_app_l; [exact Hp|].
  eapply lookup_lt_Some. exact Hp.
Qed.

Lemma polygons_kept_set_flipped (r : PolyRef) (v : bool) :
  preserves polygons_kept (set_flipped r v).
Proof.
  intros h a h' E. unfold set_flipped in E.
  destruct (polys h !! r) as [p0|] eqn:Hr; inversion E; subst. clear E.
  intros i p Hp. simpl. destruct (Nat.eq_dec r i) as [->|Hne].
  - rewrite list_lookup_insert_eq by (eapply lookup_lt_Some; exact Hp).
    rewrite Hr in Hp. inversion Hp; subst. eexists. split; [reflexivity|].
    split; reflexivity.
  - rewrite list_lookup_insert_ne by assumption. exists p. auto.
Qed.

Lemma parents_older_refl (h : Heap) : keeps_parents_older h h.
Proof. intros H. exact H. Qed.

Lemma parents_older_trans (h1 h2 h3 : Heap) :
  keeps_parents_older h1 h2 -> keeps_parents_older h2 h3 ->
  keeps_parents_older h1 h3.
Proof. unfold keeps_parents_older. auto. Qed.

Lemma parents_older_spanning (plane : Plane) (polygon : PolyRef) :
  preserves keeps_parents_older (CSGPolygon_splitSpanning plane polygon).
Proof.
  intros h sp h' E Hwf. apply spanning_store in E.
  destruct E as (Hlt & extra & E & Hpar).
  intros i q p Hp Hq. rewrite E in Hp.
  destruct (Nat.lt_ge_cases i (length (polys h))) as [Hi|Hi].
  - rewrite lookup_app_l in Hp by assumption. eapply Hwf; eassumption.
  - rewrite lookup_app_r in Hp by assumption.
    apply list_elem_of_lookup_2 in Hp.
    rewrite Forall_forall in Hpar. apply Hpar in Hp.
    rewrite Hp in Hq. inversion Hq; subst. lia.
Qed.

Lemma parents_older_new_root (p : CSGPolygon) :
  parent p = None -> preserves keeps_parents_older (new_polygon p).
Proof.
  intros Hroot h a h' E Hwf. inversion E; subst. clear E.
  intros i q p' Hp Hq. simpl in Hp.
  destruct (Nat.lt_ge_cases i (length (polys h))) as [Hi|Hi].
  - rewrite lookup_app_l in Hp by assumption. eapply Hwf; eassumption.
  - rewrite lookup_app_r in Hp by assumption.
    apply list_elem_of_lookup_2 in Hp. apply list_elem_of_singleton in Hp.
    subst. congruence.
Qed.

Lemma parents_older_set_tree (r : TreeRef) (t : CSGTree) :
  preserves keeps_parents_older (set_tree r t).
Proof.
  intros h a h' E. unfold set_tree in E.
  destruct (trees h !! r); inversion E; subst. intros H. exact H.
Qed.

Lemma parents_older_new_tree (t : CSGTree) :
  preserves keeps_parents_older (new_tree t).
Proof. intros h a h' E. inversion E; subst. intros H. exact H. Qed.

Lemma parents_older_set_flipped (r : PolyRef) (v : bool) :
  preserves keeps_parents_older (set_flipped r v).
Proof.
  intros h a h' E Hwf i q p Hp Hq.
  unfold set_flipped in E.
  destruct (polys h !! r) as [p0|] eqn:Hr; inversion E; subst. clear E.
  simpl in Hp. destruct (Nat.eq_dec r i) as [->|Hne].
  - rewrite list_lookup_insert_eq in Hp by (eapply lookup_lt_Some; exact Hr).
    inversion Hp; subst. simpl in Hq. eapply Hwf; eassumption.
  - rewrite list_lookup_insert_ne in Hp by assumption.
    eapply Hwf; eassumption.
Qed.

Lemma kept_of_grows {A} (m : St Heap A) :
  preserves store_grows m -> preserves polygons_kept m.
Proof. intros H h a h' E. apply store_grows_kept. eapply H. exact E. Qed.

(** X5: the pairwise union, the subtraction and the intersection never
    change the points, the colour or the parent of a polygon object that
    was in the store before the call, and never remove one: all they write
    on an existing polygon is its [$flipped] bit. *)
Theorem operations_keep_polygons (normal : list Vec3In -> option Vec3In)
    (a b : Val) (h h' : Heap) (res : option TreeRef) :
  csg_union_op normal a b h = Some (res, h')
  \/ csg_subtract normal a b h = Some (res, h')
  \/ csg_intersect normal a b h = Some (res, h') ->
  forall (i : PolyRef) (p : CSGPolygon),
    polys h !! i = Some p ->
    exists p' : CSGPolygon,
      polys h' !! i = Some p'
      /\ points p' = points p /\ color p' = color p /\ parent p' = parent p.
Proof.
  intros E.
  assert (K : polygons_kept h h').
  { destruct E as [E|[E|E]]; revert E;
      [apply inv_union_op | apply inv_subtract | apply inv_intersect];
      eauto using polygons_kept_refl, polygons_kept_trans, kept_of_grows,
        store_grows_spanning, store_grows_new_polygon, store_grows_set_tree,
        store_grows_new_tree, polygons_kept_set_flipped. }
  intros i p Hp. destruct (K i p Hp) as (p' & Hp' & E1 & E2).
  exists p'. rewrite E1. auto.
Qed.

Lemma operations_keep_polygons_witness :
  match csg_union_op axis_polygonNormal (Some (InNode 0%nat))
                     (Some (InPolygons shifted_cube)) heap_unit_cube with
  | Some (_, h') =>
      forall (i : PolyRef) (p : CSGPolygon),
        polys heap_unit_cube !! i = Some p ->
        exists p' : CSGPolygon,
          polys h' !! i = Some p'
          /\ points p' = points p /\ color p' = color p /\ parent p' = parent p
  | None => False
  end.
Proof.
  destruct (csg_union_op axis_polygonNormal (Some (InNode 0%nat))
              (Some (InPolygons shifted_cube)) heap_unit_cube)
    as [[res h']|] eqn:E.
  - exact (operations_keep_polygons _ _ _ _ _ _ (or_introl E)).
  - vm_compute in E. discriminate E.
Defined.

(** X6: in the store every fragment is younger than the polygon it was split
    from, so the chains of [$parent] have no cycle: the operations keep this,
    whatever they allocate. *)
Theorem operations_keep_parents_older (normal : list Vec3In -> option Vec3In)
    (a b : Val) (h h' : Heap) (res : option TreeRef) :
  parents_older h ->
  csg_union_op normal a b h = Some (res, h')
  \/ csg_subtract normal a b h = Some (res, h')
  \/ csg_intersect normal a b h = Some (res, h') ->
  parents_older h'.
Proof.
  intros Hwf E.
  assert (K : keeps_parents_older h h').
  { destruct E as [E|[E|E]]; revert E;
      [apply inv_union_op | apply inv_subtract | apply inv_intersect];
      eauto using parents_older_refl, parents_older_trans,
        parents_older_spanning, parents_older_new_root,
        parents_older_set_tree, parents_older_new_tree,
        parents_older_set_flipped. }
  exact (K Hwf).
Qed.

Lemma empty_heap_parents_older : parents_older empty_heap.
Proof. intros i q p Hp. discriminate Hp. Qed.

Lemma operations_keep_parents_older_witness :
  match csg_union_op axis_polygonNormal (Some (InPolygons unit_cube))
                     (Some (InPolygons shifted_cube)) empty_heap with
  | Some (_, h') => parents_older h'
  | None => False
  end.
Proof.
  destruct (csg_union_op axis_polygonNormal (Some (InPolygons unit_cube))
              (Some (InPolygons shifted_cube)) empty_heap)
    as [[res h']|] eqn:E.
  - exact (operations_keep_parents_older _ _ _ _ _ _
             empty_heap_parents_older (or_introl E)).
  - vm_compute in E. discriminate E.
Defined.

(** ** Output extraction, continued *)

Lemma length_map_delete (k : PolyRef) (m : list (PolyRef * bool)) :
  (length (map_delete k m) <= length m)%nat.
Proof. unfold map_delete. apply List.filter_length_le. Qed.

Lemma length_map_set (k : PolyRef) (v : bool) (m : list (PolyRef * bool)) :
  (length (map_set k v m) <= S (length m))%nat.
Proof.
  induction m as [|[k' v'] m IH]; simpl; [lia|].
  destruct (k =? k')%nat; simpl; lia.
Qed.

Lemma add_result (h : Heap) (fuel : nat) (polygon r : PolyRef) (c c' : Collect) :
  add h fuel polygon c = Some (r, c') ->
  ancestor h polygon r
  /\ (length (allPolygons c') <= length (allPolygons c))%nat.
Proof.
  revert polygon c. induction fuel as [|fuel IH]; intros polygon c E.
  - discriminate E.
  - simpl in E. unfold st_bind, read_polygon in E.
    destruct (polys h !! polygon) as [p|] eqn:Hp; [|discriminate E].
    destruct (parent p) as [q|] eqn:Hq.
    + destruct (byParent c !! q) as [found|].
      * apply IH in E. destruct E as [Ha Hl]. simpl in Hl. split.
        -- eapply ancestor_parent; eassumption.
        -- pose proof (length_map_delete found (allPolygons c)). lia.
      * inversion E; subst. simpl. split; [apply ancestor_self | lia].
    + inversion E; subst. split; [apply ancestor_self | lia].
Qed.

Lemma map_delete_sublist (k : PolyRef) (m : list (PolyRef * bool)) :
  sublist (map_delete k m) m.
Proof.
  unfold map_delete. induction m as [|kv m IH]; simpl; [constructor|].
  destruct (negb (fst kv =? k)%nat); constructor; exact IH.
Qed.

Lemma add_takes_out (h : Heap) (fuel : nat) (polygon r : PolyRef)
    (c c' : Collect) :
  add h fuel polygon c = Some (r, c') ->
  sublist (allPolygons c') (allPolygons c).
Proof.
  revert polygon c. induction fuel as [|fuel IH]; intros polygon c E.
  - discriminate E.
  - simpl in E. unfold st_bind, read_polygon in E.
    destruct (polys h !! polygon) as [p|] eqn:Hp; [|discriminate E].
    destruct (parent p) as [q|] eqn:Hq.
    + destruct (byParent c !! q) as [found|].
      * apply IH in E. simpl in E.
        etransitivity; [exact E | apply map_delete_sublist].
      * inversion E; subst. reflexivity.
    + inversion E; subst. reflexivity.
Qed.

(** X7: [add] returns the polygon it is given or one of the polygons it
    descends from, and it only takes entries out of the output set: the set
    it leaves is the set it found with some entries removed, the others as
    they were and in their order, none added and none changed; in a store
    where fragments are younger than their parents it does return, for every
    polygon of the store, with the recursion depth [csg_polygons] allows. *)
Theorem add_returns_ancestor (h : Heap) (polygon : PolyRef) (c : Collect) :
  parents_older h ->
  (polygon < length (polys h))%nat ->
  exists (r : PolyRef) (c' : Collect),
    add h (S (length (polys h))) polygon c = Some (r, c')
    /\ ancestor h polygon r
    /\ sublist (allPolygons c') (allPolygons c).
Proof.
  intros Hwf Hlt.
  destruct (add_enough_fuel h (S (length (polys h))) polygon c Hwf)
    as (r & c' & E); [lia | exact Hlt |].
  exists r, c'. split; [exact E|]. split.
  - eapply add_result. exact E.
  - eapply add_takes_out. exact E.
Qed.

Lemma heap_siblings_parents_older : parents_older heap_siblings.
Proof.
  intros i q p Hp Hq.
  destruct i as [|[|[|i]]]; simpl in Hp; inversion Hp; subst;
    simpl in Hq; inversion Hq; lia.
Qed.

Lemma add_returns_ancestor_witness :
  exists (r : PolyRef) (c' : Collect),
    add heap_siblings 4 2 (mkCollect {[ 0%nat := 1%nat ]} [(1%nat, false)])
    = Some (r, c')
    /\ ancestor heap_siblings 2 r
    /\ sublist (allPolygons c') [(1%nat, false)].
Proof.
  apply (add_returns_ancestor heap_siblings 2
           (mkCollect {[ 0%nat := 1%nat ]} [(1%nat, false)])
           heap_siblings_parents_older).
  simpl. lia.
Defined.

Lemma collect_bundle (h : Heap) (ps : list PolyRef) (c c' : Collect) :
  for_of ps (fun polygon =>
    do k <- add h (S (length (polys h))) polygon;
    do p <- read_polygon h polygon;
    fun c => Some (tt, mkCollect (byParent c)
                                 (map_set k (flipped p) (allPolygons c))))
    c = Some (tt, c') ->
  (length (allPolygons c') <= length (allPolygons c) + length ps)%nat.
Proof.
  revert c. induction ps as [|polygon ps IH]; intros c E.
  - inversion E; subst. lia.
  - cbn [for_of] in E. apply st_bind_inv in E.
    destruct E as ([] & c1 & E1 & E).
    apply IH in E.
    apply st_bind_inv in E1. destruct E1 as (k & c2 & Ek & E1).
    apply add_result in Ek. destruct Ek as [_ Hk].
    apply st_bind_inv in E1. destruct E1 as (p & c3 & Ep & E1).
    unfold read_polygon in Ep.
    destruct (polys h !! polygon); inversion Ep; subst.
    inversion E1; subst. simpl in E.
    pose proof (length_map_set k (flipped p) (allPolygons c3)).
    simpl. lia.
Qed.

Lemma collect_each (h : Heap) (t t' : CSGTree) (c c' : Collect) :
  csg_tree_each t (collect_node h) c = Some (t', c') ->
  t' = t
  /\ (length (allPolygons c')
      <= length (allPolygons c) + length (tree_polygons t))%nat.
Proof.
  revert t' c c'.
  induction t as [|plane polygons front IHf back IHb]; intros t' c c' E.
  - inversion E; subst. split; [reflexivity | simpl; lia].
  - cbn [csg_tree_each] in E.
    apply st_bind_inv in E. destruct E as (n & c1 & E1 & E).
    unfold collect_node in E1.
    apply st_bind_inv in E1. destruct E1 as ([] & c0 & E0 & E1).
    inversion E1; subst n c1. clear E1. cbn [v_front v_back v_plane v_polygons] in *.
    apply collect_bundle in E0.
    apply st_bind_inv in E. destruct E as (f' & c2 & Ef & E).
    apply IHf in Ef. destruct Ef as [-> Hf].
    apply st_bind_inv in E. destruct E as (b' & c3 & Eb & E).
    apply IHb in Eb. destruct Eb as [-> Hb].
    inversion E; subst. split; [reflexivity|].
    simpl. rewrite !length_app. lia.
Qed.

Lemma output_length (h : Heap) (l : list (PolyRef * bool))
    (acc : option (list Polygon)) (result : list Polygon) :
  foldl (fun acc pf => acc ≫= fun r => output_polygon h r pf) acc l
  = Some result ->
  exists start : list Polygon,
    acc = Some start /\ length result = (length start + length l)%nat.
Proof.
  revert acc. induction l as [|pf l IH]; intros acc E; simpl in E.
  - exists result. split; [exact E | simpl; lia].
  - apply IH in E. destruct E as (mid & E & Hl).
    destruct acc as [start|]; [|discriminate E]. simpl in E.
    exists start. split; [reflexivity|].
    unfold output_polygon in E.
    destruct (polys h !! fst pf); inversion E; subst.
    rewrite length_app in Hl. simpl in *. lia.
Qed.

(** X8: the output of [csg_polygons] never has more polygons than the tree
    stores in its bundles (re-merging split fragments can only make them
    fewer), and extracting it leaves the heap as it was. *)
Theorem csg_polygons_at_most_stored (h h' : Heap) (root : TreeRef)
    (t : CSGTree) (out : list Polygon) :
  trees h !! root = Some t ->
  csg_polygons (Some root) h = Some (out, h') ->
  h' = h /\ (length out <= length (tree_polygons t))%nat.
Proof.
  intros Ht E. unfold csg_polygons in E.
  apply st_bind_inv in E. destruct E as (t0 & h0 & E0 & E).
  simpl in E0. unfold get_tree in E0. rewrite Ht in E0.
  inversion E0; subst t0 h0. clear E0.
  destruct (csg_tree_each t (collect_node h) (mkCollect ∅ []))
    as [[t' c]|] eqn:Ec; [|discriminate E].
  apply collect_each in Ec. destruct Ec as [_ Hc]. simpl in Hc.
  destruct (foldl _ _ _) as [result|] eqn:Eo; [|discriminate E].
  inversion E; subst. split; [reflexivity|].
  apply output_length in Eo. destruct Eo as (start & Es & Hl).
  inversion Es; subst. simpl in Hl. lia.
Qed.

Lemma csg_polygons_at_most_stored_witness :
  match trees heap_unit_cube !! 0%nat,
        csg_polygons (Some 0%nat) heap_unit_cube with
  | Some t, Some (out, h') =>
      h' = heap_unit_cube /\ (length out <= length (tree_polygons t))%nat
  | _, _ => False
  end.
Proof.
  destruct (trees heap_unit_cube !! 0%nat) as [t|] eqn:Ht.
  - destruct (csg_polygons (Some 0%nat) heap_unit_cube) as [[out h']|] eqn:E.
    + exact (csg_polygons_at_most_stored heap_unit_cube h' 0 t out Ht E).
    + vm_compute in E. discriminate E.
  - vm_compute in Ht. discriminate Ht.
Defined.

(** ** The builder, continued *)

Lemma extends_refl (t : CSGTree) : extends t t.
Proof.
  induction t as [|plane ps front IHf back IHb]; [constructor|].
  rewrite <- (app_nil_r ps) at 2. constructor; assumption.
Qed.

Lemma extends_trans (t1 t2 t3 : CSGTree) :
  extends t1 t2 -> extends t2 t3 -> extends t1 t3.
Proof.
  intros H12. revert t3. induction H12 as [|plane ps e1 f f' b b' _ IHf _ IHb];
    intros t3 H23; [constructor|].
  inversion H23; subst. rewrite <- app_assoc. constructor; auto.
Qed.

Lemma extends_polygons (t t' : CSGTree) :
  extends t t' -> (length (tree_polygons t) <= length (tree_polygons t'))%nat.
Proof.
  induction 1 as [|plane ps e f f' b b' _ IHf _ IHb]; simpl; [lia|].
  rewrite !length_app. lia.
Qed.

(** Inserting a polygon grows the tree. *)
Lemma addPolygon_grows (h h' : Heap) (node t' : CSGTree)
    (polygon : PolyRef) (polygonNormal : Vec3In) (planeW : Q) :
  csg_tree_addPolygon node polygon polygonNormal planeW h = Some (t', h') ->
  extends node t'
  /\ (length (tree_polygons node) < length (tree_polygons t'))%nat.
Proof.
  revert polygon h t' h'.
  induction node as [|plane ps front IHf back IHb]; intros polygon h t' h' E.
  - inversion E; subst. split; [constructor | simpl; lia].
  - cbn [csg_tree_addPolygon] in E.
    apply st_bind_inv in E. destruct E as (sp & h1 & _ & E).
    apply st_bind_inv in E. destruct E as (f' & h2 & Ef & E).
    apply st_bind_inv in E. destruct E as (b' & h3 & Eb & E).
    inversion E; subst t' h'. clear E.
    assert (Hf : extends front f'
                 /\ (sfront sp <> None ->
                     length (tree_polygons front) < length (tree_polygons f'))%nat).
    { destruct (sfront sp) as [f|].
      - apply IHf in Ef. tauto.
      - inversion Ef; subst. split; [apply extends_refl | congruence]. }
    assert (Hb : extends back b'
                 /\ (sback sp <> None ->
                     length (tree_polygons back) < length (tree_polygons b'))%nat).
    { destruct (sback sp) as [b|].
      - apply IHb in Eb. tauto.
      - inversion Eb; subst. split; [apply extends_refl | congruence]. }
    destruct Hf as [Xf Lf], Hb as [Xb Lb].
    pose proof (extends_polygons _ _ Xf). pose proof (extends_polygons _ _ Xb).
    destruct (sfront sp) as [f|], (sback sp) as [b|].
    + split; [rewrite <- (app_nil_r ps) at 2; constructor; assumption|].
      simpl. rewrite !length_app.
      assert (length (tree_polygons front) < length (tree_polygons f'))%nat
        by (apply Lf; discriminate). lia.
    + split; [rewrite <- (app_nil_r ps) at 2; constructor; assumption|].
      simpl. rewrite !length_app.
      assert (length (tree_polygons front) < length (tree_polygons f'))%nat
        by (apply Lf; discriminate). lia.
    + split; [rewrite <- (app_nil_r ps) at 2; constructor; assumption|].
      simpl. rewrite !length_app.
      assert (length (tree_polygons back) < length (tree_polygons b'))%nat
        by (apply Lb; discriminate). lia.
    + split; [constructor; assumption|].
      simpl. rewrite !length_app. simpl. lia.
Qed.




Lemma addPolygon_root (h h' : Heap) (plane : Plane) (ps : list PolyRef)
    (front back t' : CSGTree) (polygon : PolyRef) (polygonNormal : Vec3In)
    (planeW : Q) :
  csg_tree_addPolygon (Node plane ps front back) polygon polygonNormal planeW h
  = Some (t', h') ->
  exists ps' front' back', t' = Node plane ps' front' back'.
Proof.
  intros E. cbn [csg_tree_addPolygon] in E.
  apply st_bind_inv in E. destruct E as (sp & h1 & _ & E).
  apply st_bind_inv in E. destruct E as (f' & h2 & _ & E).
  apply st_bind_inv in E. destruct E as (b' & h3 & _ & E).
  inversion E; subst. eauto.
Qed.

Section BuildingTrees.

Variable normal : list Vec3In -> option Vec3In.

Lemma build_root (rest : list Polygon) (h h' : Heap) (plane : Plane)
    (ps : list PolyRef) (front back root : CSGTree) :
  fold_of rest (Node plane ps front back) (csg_tree_build normal) h
  = Some (root, h') ->
  exists ps' front' back', root = Node plane ps' front' back'.
Proof.
  revert h ps front back.
  induction rest as [|p rest IH]; intros h ps front back E.
  - inversion E; subst. eauto.
  - cbn [fold_of] in E. apply st_bind_inv in E.
    destruct E as (t1 & h1 & E1 & E).
    unfold csg_tree_build in E1.
    destruct (normal (points p)) as [n|]; [|discriminate E1].
    apply st_bind_inv in E1. destruct E1 as (polygon & h0 & _ & E1).
    destruct (head (points p)) as [v0|]; [|discriminate E1].
    apply addPolygon_root in E1. destruct E1 as (ps1 & f1 & b1 & ->).
    eapply IH. exact E.
Qed.

Lemma build_extends (rest : list Polygon) (root t : CSGTree) (h h' : Heap) :
  fold_of rest root (csg_tree_build normal) h = Some (t, h') ->
  extends root t.
Proof.
  revert root h. induction rest as [|p rest IH]; intros root h E.
  - inversion E; subst. apply extends_refl.
  - cbn [fold_of] in E. apply st_bind_inv in E.
    destruct E as (t1 & h1 & E1 & E).
    unfold csg_tree_build in E1.
    destruct (normal (points p)) as [n|]; [|discriminate E1].
    apply st_bind_inv in E1. destruct E1 as (polygon & h0 & _ & E1).
    destruct (head (points p)) as [v0|]; [|discriminate E1].
    apply addPolygon_grows in E1. destruct E1 as [Hx _].
    eapply extends_trans; [exact Hx | eapply IH; exact E].
Qed.

(** X10: [csg_tree] of an empty polygon list is [undefined] and changes
    nothing; of a non-empty list it is a new root, never [undefined], whose
    plane is the plane of the first polygon (its normal, and the dot product
    of the normal with its first point), however many polygons follow, and
    whose bundle starts with the first polygon: a new object with the
    polygon's colour and points, not flipped and without parent, allocated
    right after the objects the store had.  No polygon object that was in the
    store is touched. *)
Theorem csg_tree_of_polygons (ps : list Polygon) (h h' : Heap)
    (r : option TreeRef) :
  csg_tree normal (Some (InPolygons ps)) h = Some (r, h') ->
  match ps with
  | [] => r = None /\ h' = h
  | p0 :: _ =>
      exists (n v0 : Vec3In) (more : list PolyRef) (front back : CSGTree)
             (extra : list CSGPolygon),
        normal (points p0) = Some n
        /\ head (points p0) = Some v0
        /\ r = Some (length (trees h))
        /\ trees h'
           = trees h
             ++ [Node (mkPlane (mkVec3 (x n) (y n) (z n)) (vec3_dot n v0))
                      (length (polys h) :: more) front back]
        /\ polys h'
           = polys h
             ++ mkCSGPolygon (mkPolygon (color p0) (points p0)) false None
                :: extra
  end.
Proof.
  intros E. destruct ps as [|p0 rest].
  - inversion E; subst. split; reflexivity.
  - cbn [csg_tree] in E. apply st_bind_inv in E.
    destruct E as (root & h0 & E0 & E).
    pose proof E0 as T0.
    apply (keeps_fold_of [] _ _ _ (keeps_build normal [])) in T0.
    apply only_trees_nil in T0.
    cbn [fold_of] in E0. apply st_bind_inv in E0.
    destruct E0 as (t1 & h1 & E1 & E0).
    unfold csg_tree_build in E1.
    destruct (normal (points p0)) as [n|] eqn:En; [|discriminate E1].
    apply st_bind_inv in E1. destruct E1 as (polygon & h2 & Enew & E1).
    destruct (head (points p0)) as [v0|] eqn:Ev; [|discriminate E1].
    inversion E1; subst t1 h1. clear E1.
    unfold new_polygon in Enew. inversion Enew; subst polygon h2. clear Enew.
    assert (G : store_grows
                  (mkHeap (polys h ++ [mkCSGPolygon
                                         (mkPolygon (color p0) (points p0))
                                         false None]) (trees h)) h0).
    { revert E0. apply preserves_fold_of;
        [apply store_grows_refl | apply store_grows_trans |].
      intros acc p. apply inv_build;
        eauto using store_grows_refl, store_grows_trans, store_grows_spanning,
          store_grows_new_polygon. }
    destruct G as [extra G]. cbn [polys] in G.
    apply build_extends in E0. inversion E0; subst.
    unfold st_bind, new_tree, st_ret in E. inversion E; subst. simpl.
    exists n, v0, extra0, front', back', extra.
    rewrite T0, G, <- app_assoc. auto.
Qed.

End BuildingTrees.

Lemma csg_tree_of_polygons_witness :
  exists (n v0 : Vec3In) (more : list PolyRef) (front back : CSGTree)
         (extra : list CSGPolygon),
    axis_polygonNormal (points (mkPolygon 1 [V 1 0 0; V 1 1 0; V 1 1 1]))
    = Some n
    /\ head (points (mkPolygon 1 [V 1 0 0; V 1 1 0; V 1 1 1])) = Some v0
    /\ Some 0%nat = Some (length (trees empty_heap))
    /\ trees (mkHeap [mkCSGPolygon (mkPolygon 1 [V 1 0 0; V 1 1 0; V 1 1 1])
                                   false None]
                     [Node (mkPlane (V 1 0 0) 1) [0%nat] Null Null])
       = trees empty_heap
         ++ [Node (mkPlane (mkVec3 (x n) (y n) (z n)) (vec3_dot n v0))
                  (length (polys empty_heap) :: more) front back]
    /\ polys (mkHeap [mkCSGPolygon (mkPolygon 1 [V 1 0 0; V 1 1 0; V 1 1 1])
                                   false None]
                     [Node (mkPlane (V 1 0 0) 1) [0%nat] Null Null])
       = polys empty_heap
         ++ mkCSGPolygon (mkPolygon
                            (color (mkPolygon 1 [V 1 0 0; V 1 1 0; V 1 1 1]))
                            (points (mkPolygon 1 [V 1 0 0; V 1 1 0; V 1 1 1])))
                         false None
            :: extra.
Proof.
  apply (csg_tree_of_polygons axis_polygonNormal
           [mkPolygon 1 [V 1 0 0; V 1 1 0; V 1 1 1]] empty_heap _ (Some 0%nat)).
  vm_compute. reflexivity.
Defined.

(** ** The clipper, continued *)

Lemma ancestor_grows (h h' : Heap) (i r : PolyRef) :
  store_grows h h' -> ancestor h i r -> ancestor h' i r.
Proof.
  intros [extra E]. induction 1 as [i|i q r p Hp Hq _ IH].
  - constructor.
  - eapply ancestor_parent; [|exact Hq|exact IH].
    rewrite E, lookup_app_l; [exact Hp|]. eapply lookup_lt_Some; exact Hp.
Qed.

Lemma ancestor_trans (h : Heap) (i j r : PolyRef) :
  ancestor h i j -> ancestor h j r -> ancestor h i r.
Proof.
  induction 1 as [i|i q j p Hp Hq _ IH]; intros Hj; [exact Hj|].
  eapply ancestor_parent; eauto.
Qed.

Lemma split_pieces (h h1 : Heap) (plane : Plane) (polygon : PolyRef)
    (sp : SplitPolygonResult) :
  CSGPolygon_split plane polygon h = Some (sp, h1) ->
  store_grows h h1
  /\ (forall f, sfront sp = Some f -> ancestor h1 f polygon)
  /\ (forall b, sback sp = Some b -> ancestor h1 b polygon).
Proof.
  unfold CSGPolygon_split, st_bind at 1, get_polygon at 1.
  destruct (polys h !! polygon) as [p|] eqn:Hp; [|discriminate].
  destruct (fst (classify plane (points p)) && snd (classify plane (points p)))
    eqn:Eboth; intros E.
  - destruct (last (points p)) as [iv|] eqn:El.
    2:{ unfold CSGPolygon_splitSpanning, st_bind, get_polygon in E.
        rewrite Hp, El in E. discriminate E. }
    destruct (splitSpanning_result h plane polygon p iv Hp El)
      as (sp' & extra & E' & _ & Hf & Hb).
    rewrite E' in E. inversion E; subst sp h1. clear E.
    split; [exists extra; reflexivity|]. split.
    + intros f Hsf. eapply ancestor_parent;
        [apply Hf, Hsf | reflexivity | constructor].
    + intros b Hsb. eapply ancestor_parent;
        [apply Hb, Hsb | reflexivity | constructor].
  - inversion E; subst sp h1. clear E.
    split; [apply store_grows_refl|]. simpl. split.
    + intros f Hsf. destruct (fst _); inversion Hsf; subst. constructor.
    + intros b Hsb. destruct (snd _); inversion Hsb; subst. constructor.
Qed.

Lemma route_pieces (h : Heap) (node polygonPlane : Plane) (polygon : PolyRef)
    (sp : SplitPolygonResult) :
  (forall f, sfront sp = Some f -> ancestor h f polygon) ->
  (forall b, sback sp = Some b -> ancestor h b polygon) ->
  (forall f, sfront (coplanar_route node polygon polygonPlane sp) = Some f ->
             ancestor h f polygon)
  /\ (forall b, sback (coplanar_route node polygon polygonPlane sp) = Some b ->
                ancestor h b polygon).
Proof.
  intros Hf Hb. unfold coplanar_route.
  destruct (sfront sp) as [f0|] eqn:Ef, (sback sp) as [b0|] eqn:Eb;
    try (split; intros ? E; [apply Hf | apply Hb]; congruence).
  destruct (Qltb _ _); simpl; split; intros ? E; inversion E; subst;
    constructor.
Qed.

Lemma clipPolygon_pieces (h h' : Heap) (node : CSGTree)
    (polygon : PolyRef) (polygonPlane : Plane) (result result' : list PolyRef) :
  csg_tree_clipPolygon node polygon polygonPlane result h = Some (result', h') ->
  store_grows h h'
  /\ exists survivors : list PolyRef,
       result' = result ++ survivors
       /\ Forall (fun r => ancestor h' r polygon) survivors.
Proof.
  revert polygon result result' h h'.
  induction node as [|plane ps front IHf back IHb];
    intros polygon result result' h h' E; [discriminate E|].
  cbn [csg_tree_clipPolygon] in E.
  apply st_bind_inv in E. destruct E as (sp & h1 & Es & E).
  apply split_pieces in Es. destruct Es as (G1 & Pf & Pb).
  destruct (route_pieces h1 plane polygonPlane polygon sp Pf Pb) as [Rf Rb].
  set (sp' := coplanar_route plane polygon polygonPlane sp) in *.
  apply st_bind_inv in E. destruct E as (result1 & h2 & Ef & E).
  assert (Hfront : store_grows h1 h2
                   /\ exists s1, result1 = result ++ s1
                                 /\ Forall (fun r => ancestor h2 r polygon) s1).
  { destruct (sfront sp') as [f|] eqn:Esf.
    - destruct front as [|fp fps ff fb].
      + inversion Ef; subst. split; [apply store_grows_refl|].
        exists [f]. split; [reflexivity|]. repeat constructor. auto.
      + apply IHf in Ef. destruct Ef as (G & s1 & -> & Hs).
        split; [exact G|]. exists s1. split; [reflexivity|].
        eapply Forall_impl; [exact Hs|]. intros r Hr. simpl in Hr.
        eapply ancestor_trans; [exact Hr|].
        eapply ancestor_grows; [exact G | auto].
    - inversion Ef; subst. split; [apply store_grows_refl|].
      exists []. rewrite app_nil_r. split; [reflexivity | constructor]. }
  destruct Hfront as (G2 & s1 & -> & Hs1).
  assert (Hback : store_grows h2 h'
                  /\ exists s2, result' = (result ++ s1) ++ s2
                                /\ Forall (fun r => ancestor h' r polygon) s2).
  { destruct (sback sp') as [b|] eqn:Esb.
    - destruct back as [|bp bps bf bb].
      + inversion E; subst. split; [apply store_grows_refl|].
        exists []. rewrite app_nil_r. split; [reflexivity | constructor].
      + apply IHb in E. destruct E as (G & s2 & -> & Hs).
        split; [exact G|]. exists s2. split; [reflexivity|].
        eapply Forall_impl; [exact Hs|]. intros r Hr. simpl in Hr.
        eapply ancestor_trans; [exact Hr|].
        eapply ancestor_grows; [exact G|].
        eapply ancestor_grows; [exact G2 | auto].
    - inversion E; subst. split; [apply store_grows_refl|].
      exists []. rewrite app_nil_r. split; [reflexivity | constructor]. }
  destruct Hback as (G3 & s2 & -> & Hs2).
  split.
  - eapply store_grows_trans; [exact G1|].
    eapply store_grows_trans; eassumption.
  - exists (s1 ++ s2). split; [rewrite app_assoc; reflexivity|].
    apply Forall_app. split; [|exact Hs2].
    eapply Forall_impl; [exact Hs1|]. intros r Hr. simpl in Hr.
    eapply ancestor_grows; eassumption.
Qed.

(** X11: clipping a polygon against a tree only appends to the result list,
    and what it appends is the polygon itself or pieces split from it (each
    survivor descends from the polygon by [$parent]); the polygon objects
    that were in the store are left as they were, and no tree of the store
    is written: the tree clipped against is as it was. *)
Theorem clipPolygon_appends_pieces (h h' : Heap) (node : CSGTree)
    (polygon : PolyRef) (polygonPlane : Plane) (result result' : list PolyRef) :
  csg_tree_clipPolygon node polygon polygonPlane result h = Some (result', h') ->
  (exists new : list CSGPolygon, polys h' = polys h ++ new)
  /\ trees h' = trees h
  /\ exists survivors : list PolyRef,
       result' = result ++ survivors
       /\ Forall (fun r => ancestor h' r polygon) survivors.
Proof.
  intros E. destruct (clipPolygon_pieces _ _ _ _ _ _ _ E) as [G S].
  split; [exact G|]. split; [|exact S].
  apply only_trees_nil. revert E. apply keeps_clipPolygon.
Qed.

Lemma clipPolygon_appends_pieces_witness :
  match csg_tree_clipPolygon two_node_tree 1 plane_x2 [7%nat] heap_two_nodes with
  | Some (result', h') =>
      (exists new : list CSGPolygon, polys h' = polys heap_two_nodes ++ new)
      /\ trees h' = trees heap_two_nodes
      /\ exists survivors : list PolyRef,
           result' = [7%nat] ++ survivors
           /\ Forall (fun r => ancestor h' r 1) survivors
  | None => False
  end.
Proof.
  destruct (csg_tree_clipPolygon two_node_tree 1 plane_x2 [7%nat] heap_two_nodes)
    as [[result' h']|] eqn:E.
  - exact (clipPolygon_appends_pieces _ _ _ _ _ _ _ E).
  - vm_compute in E. discriminate E.
Defined.

Lemma clip_each_skeleton (bsp : option TreeRef) (t t' : CSGTree) (h h' : Heap) :
  csg_tree_each t (clip_node bsp) h = Some (t', h') ->
  skeleton t' = skeleton t.
Proof.
  revert t' h h'.
  induction t as [|plane ps front IHf back IHb]; intros t' h h' E.
  - inversion E; subst. reflexivity.
  - cbn [csg_tree_each] in E.
    apply st_bind_inv in E. destruct E as (n & h1 & E1 & E).
    unfold clip_node in E1.
    apply st_bind_inv in E1. destruct E1 as (clipped & h0 & _ & E1).
    inversion E1; subst n h1. clear E1.
    cbn [v_front v_back v_plane v_polygons] in E.
    apply st_bind_inv in E. destruct E as (f' & h2 & Ef & E).
    apply st_bind_inv in E. destruct E as (b' & h3 & Eb & E).
    inversion E; subst. simpl.
    rewrite (IHf _ _ _ Ef), (IHb _ _ _ Eb). reflexivity.
Qed.

(** X12: clipping the tree under [root] against another tree rewrites its
    bundles and nothing else: the tree keeps its shape and every plane, the
    other trees are left as they were, and no polygon object that was in the
    store is changed (fragments are new objects). *)
Theorem clipTo_keeps_skeleton (h h' : Heap) (root : TreeRef)
    (bsp : option TreeRef) (t : CSGTree) :
  trees h !! root = Some t ->
  csg_tree_clipTo (Some root) bsp h = Some (tt, h') ->
  exists t' : CSGTree,
    trees h' = <[root := t']> (trees h)
    /\ skeleton t' = skeleton t
    /\ exists new : list CSGPolygon, polys h' = polys h ++ new.
Proof.
  intros Ht E.
  assert (G : store_grows h h').
  { revert E. apply inv_clipTo;
      eauto using store_grows_refl, store_grows_trans, store_grows_spanning,
        store_grows_set_tree. }
  unfold csg_tree_clipTo, in_place in E.
  apply st_bind_inv in E. destruct E as (t0 & h0 & E0 & E).
  unfold get_tree in E0. rewrite Ht in E0. inversion E0; subst t0 h0. clear E0.
  apply st_bind_inv in E. destruct E as (t' & h1 & E1 & E).
  pose proof E1 as T1.
  apply (keeps_each [] _ _ (clip_node_ok [] bsp)) in T1.
  apply only_trees_nil in T1.
  apply clip_each_skeleton in E1.
  unfold set_tree in E. rewrite T1, Ht in E. inversion E; subst.
  exists t'. simpl. auto.
Qed.

Lemma clipTo_keeps_skeleton_witness :
  match csg_tree_clipTo (Some 0%nat) (Some 0%nat) heap_two_nodes with
  | Some (_, h') =>
      exists t' : CSGTree,
        trees h' = <[0%nat := t']> (trees heap_two_nodes)
        /\ skeleton t' = skeleton two_node_tree
        /\ exists new : list CSGPolygon,
             polys h' = polys heap_two_nodes ++ new
  | None => False
  end.
Proof.
  destruct (csg_tree_clipTo (Some 0%nat) (Some 0%nat) heap_two_nodes)
    as [[[] h']|] eqn:E.
  - exact (clipTo_keeps_skeleton heap_two_nodes h' 0 (Some 0%nat)
             two_node_tree eq_refl E).
  - vm_compute in E. discriminate E.
Defined.

(** ** The merger *)

Lemma target_extends_refl (r : TreeRef) (h : Heap) : target_extends r h h.
Proof. intros t0 Ht. exists t0. split; [exact Ht | apply extends_refl]. Qed.

Lemma target_extends_trans (r : TreeRef) (h1 h2 h3 : Heap) :
  target_extends r h1 h2 -> target_extends r h2 h3 -> target_extends r h1 h3.
Proof.
  intros H1 H2 t0 Ht. destruct (H1 t0 Ht) as (t1 & Ht1 & X1).
  destruct (H2 t1 Ht1) as (t2 & Ht2 & X2).
  exists t2. split; [exact Ht2 | eapply extends_trans; eassumption].
Qed.

Lemma add_node_target (r : TreeRef) :
  visitor_ok (target_extends r) (add_node (Some r)).
Proof.
  intros C view h n h' E. unfold add_node in E.
  unfold st_bind at 1 in E.
  destruct (for_of _ _ h) as [[u h1]|] eqn:E1; [|discriminate E].
  inversion E; subst; simpl. split; [|tauto]. clear E.
  revert E1. apply preserves_for_of;
    [apply target_extends_refl | apply target_extends_trans |].
  intros polygon h0 a h2 E. unfold in_place in E.
  apply st_bind_inv in E. destruct E as (t & h3 & Eg & E).
  unfold get_tree in Eg.
  destruct (trees h0 !! r) as [t0|] eqn:Ht; inversion Eg; subst t h3. clear Eg.
  apply st_bind_inv in E. destruct E as (t1 & h4 & Ea & E).
  pose proof Ea as T.
  apply (keeps_addPolygon []) in T. apply only_trees_nil in T.
  apply addPolygon_grows in Ea. destruct Ea as [Hx _].
  unfold set_tree in E. rewrite T, Ht in E. inversion E; subst. clear E.
  intros t0' Ht'. rewrite Ht in Ht'. inversion Ht'; subst t0'.
  exists t1. simpl. split; [|exact Hx].
  apply list_lookup_insert_eq. rewrite ?T. eapply lookup_lt_Some. exact Ht.
Qed.

(** X13: merging a source tree into a target writes the target only: the
    target tree has only grown (planes in place, bundles kept in order), the
    source tree and every other tree are left as they were, no root is
    allocated, and no polygon object that was in the store is changed. *)
Theorem addTree_grows_target (h h' : Heap) (tree : TreeRef)
    (source : option TreeRef) :
  csg_tree_addTree (Some tree) source h = Some (tt, h') ->
  target_extends tree h h'
  /\ length (trees h') = length (trees h)
  /\ (forall i : TreeRef, i <> tree -> trees h' !! i = trees h !! i)
  /\ exists new : list CSGPolygon, polys h' = polys h ++ new.
Proof.
  intros E.
  assert (G : store_grows h h').
  { revert E. apply inv_addTree;
      eauto using store_grows_refl, store_grows_trans, store_grows_spanning,
        store_grows_set_tree. }
  assert (K : only_trees [tree] h h').
  { revert E. apply keeps_addTree. intros r Hr. inversion Hr. simpl. tauto. }
  destruct K as [L F].
  split; [|split; [exact L|split; [|exact G]]].
  - unfold csg_tree_addTree in E.
    apply st_bind_inv in E. destruct E as (st & h0 & E0 & E).
    assert (h0 = h) as ->.
    { destruct source as [s|]; simpl in E0.
      - unfold get_tree in E0. destruct (trees h !! s); inversion E0; reflexivity.
      - inversion E0; reflexivity. }
    assert (H : forall u, (do _ <- csg_tree_each st (add_node (Some tree));
                           st_ret tt) h = Some (u, h') ->
                          target_extends tree h h').
    { intros u Eu. apply st_bind_inv in Eu.
      destruct Eu as (t1 & h1 & E1 & Eu). inversion Eu; subst.
      revert E1. apply preserves_each;
        [apply target_extends_refl | apply target_extends_trans
         | apply add_node_target]. }
    destruct (same_node (Some tree) source), (tree_polygons st);
      try discriminate E; eapply H; exact E.
  - intros i Hi. apply F. simpl. intros [Ei|[]]. congruence.
Qed.

Lemma addTree_grows_target_witness :
  match csg_tree_addTree (Some 0%nat) (Some 1%nat)
          (mkHeap (polys heap_two_nodes)
                  [Node plane_x0 [] Null Null; two_node_tree]) with
  | Some (_, h') =>
      target_extends 0 (mkHeap (polys heap_two_nodes)
                               [Node plane_x0 [] Null Null; two_node_tree]) h'
      /\ trees h' !! 1%nat = Some two_node_tree
  | None => False
  end.
Proof.
  destruct (csg_tree_addTree (Some 0%nat) (Some 1%nat)
              (mkHeap (polys heap_two_nodes)
                      [Node plane_x0 [] Null Null; two_node_tree]))
    as [[[] h']|] eqn:E.
  - destruct (addTree_grows_target _ _ _ _ E) as (Hx & _ & F & _).
    split; [exact Hx|]. rewrite F by lia. reflexivity.
  - vm_compute in E. discriminate E.
Defined.

(** ** Edge cases of the boolean operations *)

Section EmptyInputs.

Variable normal : list Vec3In -> option Vec3In.

(** The tree built from a non-empty list holds a polygon at its root. *)
Lemma csg_tree_root_bundle (p0 : Polygon) (rest : list Polygon) (h h' : Heap)
    (r : option TreeRef) :
  csg_tree normal (Some (InPolygons (p0 :: rest))) h = Some (r, h') ->
  exists (root : TreeRef) (plane : Plane) (polygon : PolyRef)
         (more : list PolyRef) (front back : CSGTree),
    r = Some root
    /\ trees h' !! root = Some (Node plane (polygon :: more) front back).
Proof.
  intros E. cbn [csg_tree] in E. apply st_bind_inv in E.
  destruct E as (root & h0 & E0 & E).
  cbn [fold_of] in E0. apply st_bind_inv in E0.
  destruct E0 as (t1 & h1 & E1 & E0).
  unfold csg_tree_build in E1.
  destruct (normal (points p0)) as [n|]; [|discriminate E1].
  apply st_bind_inv in E1. destruct E1 as (polygon & h2 & _ & E1).
  destruct (head (points p0)) as [v0|]; [|discriminate E1].
  inversion E1; subst t1 h1. clear E1.
  apply build_extends in E0. inversion E0; subst.
  unfold st_bind, new_tree, st_ret in E. inversion E; subst. simpl.
  eexists _, _, polygon, _, _, _. split; [reflexivity|].
  rewrite list_lookup_middle by reflexivity. reflexivity.
Qed.

Lemma clipTo_undefined_throws (root : TreeRef) (h : Heap) (plane : Plane)
    (polygon : PolyRef) (more : list PolyRef) (front back : CSGTree) :
  trees h !! root = Some (Node plane (polygon :: more) front back) ->
  csg_tree_clipTo (Some root) None h = None.
Proof.
  intros Ht. unfold csg_tree_clipTo, in_place, st_bind at 1, get_tree at 1.
  rewrite Ht. reflexivity.
Qed.

(** X14: an empty polygon list is no operand for the pairwise union: with a
    non-empty polygon list on the other side the call throws (the other
    tree's polygons are clipped against [undefined]), whichever side the
    empty list is on; two empty lists give [undefined] and change nothing. *)
Theorem union_op_with_empty_list (p0 : Polygon) (rest : list Polygon) (h : Heap) :
  csg_union_op normal (Some (InPolygons [])) (Some (InPolygons (p0 :: rest))) h
  = None
  /\ csg_union_op normal (Some (InPolygons (p0 :: rest))) (Some (InPolygons [])) h
     = None
  /\ csg_union_op normal (Some (InPolygons [])) (Some (InPolygons [])) h
     = Some (None, h).
Proof.
  split; [|split; [|reflexivity]].
  - unfold csg_union_op. unfold st_bind at 1.
    change (csg_tree normal (Some (InPolygons [])) h) with (Some (@None nat, h)).
    cbv iota. unfold st_bind at 1.
    destruct (csg_tree normal (Some (InPolygons (p0 :: rest))) h)
      as [[rb h1]|] eqn:Eb; [|reflexivity].
    apply csg_tree_root_bundle in Eb.
    destruct Eb as (root & plane & polygon & more & front & back & -> & Ht).
    unfold st_bind at 1.
    change (csg_tree_clipTo None (Some root) h1) with (Some (tt, h1)).
    cbv iota. unfold st_bind at 1.
    rewrite (clipTo_undefined_throws _ _ _ _ _ _ _ Ht). reflexivity.
  - unfold csg_union_op. unfold st_bind at 1.
    destruct (csg_tree normal (Some (InPolygons (p0 :: rest))) h)
      as [[ra h1]|] eqn:Ea; [|reflexivity].
    apply csg_tree_root_bundle in Ea.
    destruct Ea as (root & plane & polygon & more & front & back & -> & Ht).
    unfold st_bind at 1.
    change (csg_tree normal (Some (InPolygons [])) h1) with (Some (@None nat, h1)).
    cbv iota. unfold st_bind at 1.
    rewrite (clipTo_undefined_throws _ _ _ _ _ _ _ Ht). reflexivity.
Qed.

End EmptyInputs.

(** ** Clipping against a leaf *)

Lemma split_front_only (h : Heap) (plane : Plane) (polygon : PolyRef)
    (p : CSGPolygon) :
  polys h !! polygon = Some p ->
  reaches_front plane (points p) -> ~ reaches_back plane (points p) ->
  CSGPolygon_split plane polygon h = Some (mkSplit (Some polygon) None, h).
Proof.
  intros Hp Hf Hb. destruct (classify_reaches plane (points p)) as [Cf Cb].
  unfold CSGPolygon_split, st_bind, get_polygon. rewrite Hp.
  apply Cf in Hf. rewrite Hf.
  destruct (snd (classify plane (points p))) eqn:Eb; [|reflexivity].
  exfalso. apply Hb, Cb. reflexivity.
Qed.

Lemma split_back_only (h : Heap) (plane : Plane) (polygon : PolyRef)
    (p : CSGPolygon) :
  polys h !! polygon = Some p ->
  reaches_back plane (points p) -> ~ reaches_front plane (points p) ->
  CSGPolygon_split plane polygon h = Some (mkSplit None (Some polygon), h).
Proof.
  intros Hp Hb Hf. destruct (classify_reaches plane (points p)) as [Cf Cb].
  unfold CSGPolygon_split, st_bind, get_polygon. rewrite Hp.
  apply Cb in Hb. rewrite Hb.
  destruct (fst (classify plane (points p))) eqn:Ef; [|reflexivity].
  exfalso. apply Hf, Cf. reflexivity.
Qed.

(** X15: at a node without a front child, a polygon that lies in front of
    the node's plane (it reaches in front and not behind) survives whole: it
    is pushed on the result as it is; at a node without a back child, a
    polygon that lies behind the plane is discarded.  Neither case allocates
    anything. *)
Theorem clipPolygon_at_leaf (h : Heap) (plane : Plane) (ps : list PolyRef)
    (child : CSGTree) (polygon : PolyRef) (p : CSGPolygon)
    (polygonPlane : Plane) (result : list PolyRef) :
  polys h !! polygon = Some p ->
  (reaches_front plane (points p) -> ~ reaches_back plane (points p) ->
   csg_tree_clipPolygon (Node plane ps Null child) polygon polygonPlane result h
   = Some (result ++ [polygon], h))
  /\ (reaches_back plane (points p) -> ~ reaches_front plane (points p) ->
      csg_tree_clipPolygon (Node plane ps child Null) polygon polygonPlane result h
      = Some (result, h)).
Proof.
  intros Hp. split.
  - intros Hf Hb. cbn [csg_tree_clipPolygon]. unfold st_bind at 1.
    rewrite (split_front_only _ _ _ _ Hp Hf Hb). reflexivity.
  - intros Hb Hf. cbn [csg_tree_clipPolygon]. unfold st_bind at 1.
    rewrite (split_back_only _ _ _ _ Hp Hb Hf). reflexivity.
Qed.

Lemma clipPolygon_at_leaf_witness :
  csg_tree_clipPolygon (Node plane_x0 [] Null Null) 0 plane_x2 [] heap_quad_x2
  = Some ([0%nat], heap_quad_x2).
Proof.
  apply (proj1 (clipPolygon_at_leaf heap_quad_x2 plane_x0 [] Null 0 quad_x2
                  plane_x2 [] eq_refl)).
  - apply Exists_cons_hd. reflexivity.
  - intros Hback. unfold reaches_back in Hback.
    repeat (apply Exists_cons in Hback; destruct Hback as [Hback|Hback];
            [vm_compute in Hback; discriminate Hback|]).
    inversion Hback.
Defined.

(** ** Extracting polygons that were never split *)

Lemma copy_points (pts : list Vec3In) :
  map (fun v => mkVec3 (x v) (y v) (z v)) pts = pts.
Proof.
  induction pts as [|[vx vy vz] pts IH]; simpl; [reflexivity|].
  rewrite IH. reflexivity.
Qed.

Lemma map_set_fresh (k : PolyRef) (v : bool) (m : list (PolyRef * bool)) :
  ~ In k (map fst m) -> map_set k v m = m ++ [(k, v)].
Proof.
  induction m as [|[k' v'] m IH]; intros Hk; simpl; [reflexivity|].
  destruct (Nat.eqb_spec k k') as [->|Hne].
  - exfalso. apply Hk. left. reflexivity.
  - rewrite IH; [reflexivity|]. intros Hin. apply Hk. right. exact Hin.
Qed.

Lemma fst_entry_of (h : Heap) (r : PolyRef) : fst (entry_of h r) = r.
Proof. unfold entry_of. destruct (polys h !! r); reflexivity. Qed.

Lemma collect_bundle_whole (h : Heap) (ps : list PolyRef) (c : Collect) :
  Forall (parentless h) ps ->
  List.NoDup (map fst (allPolygons c) ++ ps) ->
  for_of ps (fun polygon =>
    do k <- add h (S (length (polys h))) polygon;
    do p <- read_polygon h polygon;
    fun c => Some (tt, mkCollect (byParent c)
                                 (map_set k (flipped p) (allPolygons c))))
    c = Some (tt, mkCollect (byParent c)
                            (allPolygons c ++ map (entry_of h) ps)).
Proof.
  revert c. induction ps as [|polygon ps IH]; intros c Hall Hnd.
  - simpl. rewrite app_nil_r. destruct c; reflexivity.
  - apply Forall_cons in Hall. destruct Hall as [(p & Hp & Hq) Hall].
    cbn [for_of]. unfold st_bind at 1. unfold st_bind at 1.
    cbn [add]. unfold st_bind at 1. unfold read_polygon at 1. rewrite Hp.
    rewrite Hq. unfold st_ret at 1.
    unfold st_bind at 1. unfold read_polygon at 1. rewrite Hp.
    assert (Hfresh : ~ In polygon (map fst (allPolygons c))).
    { intros Hin. apply List.NoDup_remove_2 in Hnd. apply Hnd.
      apply in_or_app. left. exact Hin. }
    rewrite (map_set_fresh _ _ _ Hfresh).
    rewrite IH; cbn [byParent allPolygons].
    + rewrite <- app_assoc. cbn [map app]. unfold entry_of at 2.
      rewrite Hp. reflexivity.
    + exact Hall.
    + rewrite map_app. cbn [map fst]. rewrite <- app_assoc. exact Hnd.
Qed.

Lemma collect_each_whole (h : Heap) (t : CSGTree) (c : Collect) :
  Forall (parentless h) (tree_polygons t) ->
  List.NoDup (map fst (allPolygons c) ++ tree_polygons t) ->
  csg_tree_each t (collect_node h) c
  = Some (t, mkCollect (byParent c)
                       (allPolygons c ++ map (entry_of h) (tree_polygons t))).
Proof.
  revert c. induction t as [|plane polygons front IHf back IHb];
    intros c Hall Hnd.
  - simpl. rewrite app_nil_r. destruct c; reflexivity.
  - cbn [tree_polygons] in Hall, Hnd.
    apply Forall_app in Hall. destruct Hall as [Hp Hall].
    apply Forall_app in Hall. destruct Hall as [Hf Hb].
    assert (Ekeys : forall rs : list PolyRef, map fst (map (entry_of h) rs) = rs).
    { intros rs. induction rs as [|r rs IHrs]; simpl; [reflexivity|].
      rewrite fst_entry_of, IHrs. reflexivity. }
    cbn [csg_tree_each]. unfold st_bind at 1. unfold collect_node at 1.
    unfold st_bind at 1. cbn [v_polygons].
    rewrite (collect_bundle_whole h polygons c Hp).
    2:{ rewrite app_assoc in Hnd. apply List.NoDup_app_remove_r in Hnd.
        exact Hnd. }
    unfold st_ret at 1. cbn [v_front v_back v_plane v_polygons].
    unfold st_bind at 1. rewrite IHf; cbn [byParent allPolygons].
    2:{ exact Hf. }
    2:{ rewrite map_app, Ekeys. rewrite !app_assoc in Hnd.
        apply List.NoDup_app_remove_r in Hnd. rewrite <- app_assoc.
        rewrite <- app_assoc in Hnd. exact Hnd. }
    unfold st_bind at 1. rewrite IHb; cbn [byParent allPolygons].
    2:{ exact Hb. }
    2:{ rewrite !map_app, !Ekeys. rewrite <- !app_assoc. exact Hnd. }
    unfold st_ret. cbn [tree_polygons]. rewrite !map_app, <- !app_assoc.
    reflexivity.
Qed.

Lemma output_whole (h : Heap) (rs : list PolyRef) (start : list Polygon) :
  Forall (parentless h) rs ->
  exists out : list Polygon,
    foldl (fun acc pf => acc ≫= fun r => output_polygon h r pf)
          (Some start) (map (entry_of h) rs) = Some (start ++ out)
    /\ Forall2 (fun r o => exists p : CSGPolygon,
                  polys h !! r = Some p /\ o = emitted p) rs out.
Proof.
  revert start. induction rs as [|r rs IH]; intros start Hall.
  - exists []. simpl. rewrite app_nil_r. split; [reflexivity | constructor].
  - apply Forall_cons in Hall. destruct Hall as [(p & Hp & _) Hall].
    destruct (IH (start ++ [emitted p]) Hall) as (out & E & Hout).
    exists (emitted p :: out). split.
    + assert (He : entry_of h r = (r, flipped p)).
      { unfold entry_of. rewrite Hp. reflexivity. }
      assert (Ho : output_polygon h start (r, flipped p)
                   = Some (start ++ [emitted p])).
      { unfold output_polygon. cbn [fst snd]. rewrite Hp.
        rewrite copy_points. reflexivity. }
      cbn [map foldl]. rewrite He. cbn [mbind option_bind]. rewrite Ho.
      rewrite E. rewrite <- app_assoc. reflexivity.
    + constructor; [|exact Hout]. exists p. split; [exact Hp | reflexivity].
Qed.

(** X16: from a tree that stores each polygon once and holds no fragment of
    a split, [csg_polygons] returns one polygon per stored polygon, in the
    order of the traversal (a node's bundle, then its front subtree, then
    its back subtree): each with its colour and its points, the points in
    reverse order exactly when the polygon is flipped.  The heap is left as
    it was. *)
Theorem csg_polygons_of_unsplit_tree (h : Heap) (root : TreeRef) (t : CSGTree) :
  trees h !! root = Some t ->
  List.NoDup (tree_polygons t) ->
  Forall (parentless h) (tree_polygons t) ->
  exists out : list Polygon,
    csg_polygons (Some root) h = Some (out, h)
    /\ Forall2 (fun r o => exists p : CSGPolygon,
                  polys h !! r = Some p /\ o = emitted p)
               (tree_polygons t) out.
Proof.
  intros Ht Hnd Hall.
  destruct (output_whole h (tree_polygons t) [] Hall) as (out & E & Hout).
  exists out. split; [|exact Hout].
  unfold csg_polygons. unfold st_bind at 1. cbn [tree_at].
  unfold get_tree. rewrite Ht.
  rewrite (collect_each_whole h t (mkCollect ∅ []) Hall Hnd).
  cbn [allPolygons app]. rewrite E. reflexivity.
Qed.

Lemma csg_polygons_of_unsplit_tree_witness :
  match trees heap_unit_cube !! 0%nat with
  | Some t =>
      exists out : list Polygon,
        csg_polygons (Some 0%nat) heap_unit_cube = Some (out, heap_unit_cube)
        /\ Forall2 (fun r o => exists p : CSGPolygon,
                      polys heap_unit_cube !! r = Some p /\ o = emitted p)
                   (tree_polygons t) out
  | None => False
  end.
Proof.
  destruct (trees heap_unit_cube !! 0%nat) as [t|] eqn:Ht.
  - apply (csg_polygons_of_unsplit_tree heap_unit_cube 0 t Ht).
    + vm_compute in Ht. inversion Ht; subst t. vm_compute.
      repeat (constructor; [simpl; intuition lia|]). constructor.
    + vm_compute in Ht. inversion Ht; subst t. cbn [tree_polygons app].
      repeat (constructor; [eexists; split; vm_compute; reflexivity|]).
      constructor.
  - vm_compute in Ht. discriminate Ht.
Defined.

(** ** The divisor of the spanning split in binary64 *)










(** Rounding also moves the intersection vertex off the plane: on the plane
    [x = 0] the vertex computed on the edge from [(-9970076784718, 0, 0)] to
    [(8838771433928, 1, 0)] has [x = -0.001953125], farther than
    [PLANE_EPSILON] behind the plane.  The statements about [intersection]
    are statements of exact arithmetic. *)
Lemma intersection_rounds_binary64 :
  straddles_f64 (distance_f64 plane_x0_f64 edge_far_from)
                (distance_f64 plane_x0_f64 edge_far_to) = true
  /\ (fx (intersection_f64 plane_x0_f64 edge_far_from edge_far_to
            (distance_f64 plane_x0_f64 edge_far_from))
      =? -0x1p-9)%float = true
  /\ (distance_f64 plane_x0_f64
        (intersection_f64 plane_x0_f64 edge_far_from edge_far_to
           (distance_f64 plane_x0_f64 edge_far_from))
      <? - PLANE_EPSILON_f64)%float = true.
Proof. vm_compute. repeat split. Qed.

(** ** Output extraction: fragments that meet again *)




















(** ** The operations rewrite the tree of their first argument *)


Lemma shape_kept_refl (r : TreeRef) (h : Heap) : shape_kept r h h.
Proof. intros t0 Ht. exists t0. split; [exact Ht | apply extends_refl]. Qed.






















Section Rewriting.

Variable normal : list Vec3In -> option Vec3In.










End Rewriting.


